(** * The popup of the browser extension (src/browser-ext/popup.js)

    A shallow embedding of the popup script: the JavaScript values and
    array methods it relies on, the DOM elements and Chrome APIs it talks
    to, the functions and listeners of the script itself, and the code it
    injects into the content-script scope of the page. *)

From Stdlib Require Import ZArith Bool Lia.
From stdpp Require Import gmap strings list fin_maps.

Local Open Scope string_scope.
Local Open Scope list_scope.
Local Open Scope Z_scope.

(** ** JavaScript values and primitives *)

Module Js.

(** The values that can come out of extension storage.  Objects and
    arrays are kept as references: the popup only tests them for
    truthiness and compares them with string literals.  Of a number only
    its being zero or not matters here. *)
Inductive JsValue : Type :=
| JUndefined
| JNull
| JBool (b : bool)
| JNum (n : Z)
| JStr (s : string)
| JObject (ref : positive).

#[global] Instance JsValue_eq_dec : EqDecision JsValue.
Proof. solve_decision. Defined.

(** ToBoolean *)
Definition truthy (v : JsValue) : bool :=
  match v with
  | JUndefined | JNull => false
  | JBool b => b
  | JNum n => negb (Z.eqb n 0)
  | JStr s => negb (String.eqb s "")
  | JObject _ => true
  end.

(** [a || b] *)
Definition js_or (a b : JsValue) : JsValue := if truthy a then a else b.

(** Errors a statement can throw. *)
Inductive Error : Type :=
| TypeError
| StorageError.

Section Arrays.
Context {A : Type} `{EqDecision A}.

(** [Array.prototype.includes]; on values of one primitive type
    SameValueZero is equality. *)
Definition includes (arr : list A) (x : A) : bool :=
  existsb (fun y => bool_decide (y = x)) arr.

Fixpoint indexOf_from (arr : list A) (x : A) (i : Z) : Z :=
  match arr with
  | [] => -1
  | y :: rest => if decide (y = x) then i else indexOf_from rest x (i + 1)
  end.

(** [Array.prototype.indexOf]: index of the first occurrence, or -1. *)
Definition indexOf (arr : list A) (x : A) : Z := indexOf_from arr x 0.

(** [Array.prototype.splice(start, deleteCount)], as the array it leaves
    behind: a negative [start] counts from the end, and both arguments
    are clamped to the array. *)
Definition splice (arr : list A) (start deleteCount : Z) : list A :=
  let len := Z.of_nat (length arr) in
  let from := if start <? 0 then Z.max (len + start) 0 else Z.min start len in
  let count := Z.min (Z.max deleteCount 0) (len - from) in
  take (Z.to_nat from) arr ++ drop (Z.to_nat (from + count)) arr.

(** [Array.prototype.unshift], as the array it leaves behind. *)
Definition unshift (arr : list A) (x : A) : list A := x :: arr.
End Arrays.

(** [String.prototype.includes] *)
Fixpoint str_includes (s needle : string) : bool :=
  String.prefix needle s
  || match s with
     | EmptyString => false
     | String _ rest => str_includes rest needle
     end.

End Js.

Import Js.

(** ** The DOM elements the popup reads and writes *)

Module Dom.

Record HTMLOptionElement : Type := {
  value : string;
  innerText : string
}.

(** A drop-down [<select>]: its options and the index of the selected
    one. *)
Record HTMLSelectElement : Type := {
  options : list HTMLOptionElement;
  selectedIndex : nat
}.

(** [select.value]: the value of the selected option, or the empty
    string when there is none. *)
Definition select_value (sel : HTMLSelectElement) : string :=
  from_option value "" (options sel !! selectedIndex sel).

(** [select.innerHTML = ''] followed by one [appendChild] per option: the
    browser selects the first option of a drop-down once it has one. *)
Definition replace_options (opts : list HTMLOptionElement) : HTMLSelectElement :=
  {| options := opts; selectedIndex := 0 |}.

(** [element.classList] *)
Definition classList_remove (c : string) (classes : gset string) : gset string :=
  classes ∖ {[c]}.
Definition classList_add (c : string) (classes : gset string) : gset string :=
  classes ∪ {[c]}.

End Dom.

Import Dom.

(** ** Messages, effects and the monad of the popup's statements *)

(** [message.value]: the locales report the injected code sends (typed
    [{supported: string[], user: string}] in the listener), or anything
    without an array [supported], on which the listener's destructuring and
    method calls throw. *)
Inductive MessageValue : Type :=
| LocalesReport (supported : list string) (user : string)
| Malformed (v : JsValue).

Record Message : Type := {
  key : string;
  mvalue : MessageValue
}.

(** [sender.id] is undefined when the sender is not an extension. *)
Record MessageSender : Type := {
  id : option string
}.

Inductive Logged : Type :=
| LogMessage (m : Message)
| LogError (e : Error)
| LogText (label text : string).

(** What a statement of the popup does to the outside world. *)
Inductive Effect : Type :=
| ConsoleLog (what : Logged)
| ConsoleError (what : Logged)
| ExecuteFile (file : string)
| ExecuteScript (code : string)
| FetchResource (path : string).

Inductive Result (A : Type) : Type :=
| Ok (a : A)
| Throw (e : Error).
Arguments Ok {A} a.
Arguments Throw {A} e.

(** Statements: the effects performed so far, and a value or an exception. *)
Definition Eff (A : Type) : Type := (list Effect * Result A)%type.

#[global] Instance Eff_ret : MRet Eff := fun A a => ([], Ok a).
#[global] Instance Eff_bind : MBind Eff := fun A B f m =>
  match m with
  | (done, Ok a) => let '(more, r) := f a in (done ++ more, r)
  | (done, Throw e) => (done, Throw e)
  end.

(** [try { body } catch (err) { handler }] *)
Definition try_catch {A : Type} (body : Eff A) (handler : Error -> Eff A) : Eff A :=
  match body with
  | (done, Ok a) => (done, Ok a)
  | (done, Throw e) => let '(more, r) := handler e in (done ++ more, r)
  end.

Definition perform (e : Effect) : Eff unit := ([e], Ok tt).
Definition throw {A : Type} (e : Error) : Eff A := ([], Throw e).

Definition effects {A : Type} (m : Eff A) : list Effect := fst m.
Definition outcome {A : Type} (m : Eff A) : Result A := snd m.

(** The code strings handed to [chrome.tabs.executeScript], in order. *)
Definition dispatched {A : Type} (m : Eff A) : list string :=
  omap (fun e => match e with ExecuteScript code => Some code | _ => None end)
       (effects m).

(** A promise, as the state it settles in. *)
Inductive Promise (A : Type) : Type :=
| Fulfilled (a : A)
| Rejected (e : Error)
| Pending.
Arguments Fulfilled {A} a.
Arguments Rejected {A} e.
Arguments Pending {A}.

(** [new Promise((res) => ...)]: the executor's result is the value it
    passed to [res], if it did; an exception escaping the executor rejects
    the promise. *)
Definition new_Promise {A : Type} (executor : Eff (option A)) : Eff (Promise A) :=
  match executor with
  | (done, Ok (Some a)) => (done, Ok (Fulfilled a))
  | (done, Ok None) => (done, Ok Pending)
  | (done, Throw e) => (done, Ok (Rejected e))
  end.

(** ** [chrome.storage.sync] *)

(** How a call into the storage API goes: it does its work; it throws; or
    it reports the failure through [chrome.runtime.lastError], in which case
    the callback of a read is invoked without a result object. *)
Inductive StorageHealth : Type :=
| Working
| Throwing
| ReportingError.

(** The persisted items, and how calls into the storage API go. *)
Record StorageArea : Type := {
  items : gmap string JsValue;
  health : StorageHealth
}.

(** Whether calls into the storage API fail, one way or the other. *)
Definition failing (area : StorageArea) : bool :=
  match health area with
  | Working => false
  | Throwing | ReportingError => true
  end.

(** A callback the browser runs later, from its event loop: what the
    callback passes to [res] is kept, and an exception it throws ends it
    without reaching any [try] of the script. *)
Definition later {A : Type} (callback : Eff (option A)) : Eff (option A) :=
  match callback with
  | (done, Ok passed) => (done, Ok passed)
  | (done, Throw _) => (done, Ok None)
  end.

(** [chrome.storage.sync.get(keys, callback)]: the call itself may throw;
    otherwise the callback runs later, with an object holding the requested
    keys that are stored, or with [undefined] when the read failed. *)
Definition chrome_storage_sync_get {A : Type} (keys : list string)
    (callback : option (gmap string JsValue) -> Eff (option A)) (area : StorageArea)
  : Eff (option A) :=
  match health area with
  | Working => later (callback (Some (filter (fun kv => kv.1 ∈ keys) (items area))))
  | Throwing => throw StorageError
  | ReportingError => later (callback None)
  end.

(** [chrome.storage.sync.set(items)], called without a callback: the given
    items overwrite the stored ones of the same key; a failure that is
    reported through [chrome.runtime.lastError] reaches nobody. *)
Definition chrome_storage_sync_set (new : gmap string JsValue) (area : StorageArea)
  : StorageArea * Eff unit :=
  match health area with
  | Working => ({| items := new ∪ items area; health := health area |}, mret tt)
  | Throwing => (area, throw StorageError)
  | ReportingError => (area, mret tt)
  end.

(** [object[key]] *)
Definition prop (object : gmap string JsValue) (k : string) : JsValue :=
  default JUndefined (object !! k).

(** [result[key]] on what a callback was handed: reading a property of
    [undefined] throws. *)
Definition prop_of_result (result : option (gmap string JsValue)) (k : string)
  : Eff JsValue :=
  match result with
  | Some object => mret (prop object k)
  | None => throw TypeError
  end.

(** ** Entries of endpoints.json *)

Record EndpointDescriptor : Type := {
  name : string;
  url : string
}.

(** An entry of the bundled list: a descriptor object, or one of the falsy
    JSON values. *)
Inductive EndpointEntry : Type :=
| ENull
| EFalse
| EZero
| EEmptyString
| EDescriptor (d : EndpointDescriptor).

(** ToBoolean on an entry: objects are truthy. *)
Definition entry_truthy (e : EndpointEntry) : bool :=
  match e with
  | EDescriptor _ => true
  | ENull | EFalse | EZero | EEmptyString => false
  end.

(** ** The popup script *)

(** The listener's reordering of the reported locales (lines 208-212):
    [if (supported.includes(user)) supported.splice(supported.indexOf(user), 1);
     supported.unshift(user);] *)
Definition userLocaleFirst (supported : list string) (user : string) : list string :=
  let supported :=
    if includes supported user
    then splice supported (indexOf supported user) 1
    else supported in
  unshift supported user.

(** Number of occurrences of a locale code in a list. *)
Definition occurrences (x : string) (l : list string) : nat :=
  length (filter (fun y => y = x) l).

Definition STORAGE_KEYS_schemaVersion : string := "schemaVersion".

Definition SPEC_OPTIONS : list JsValue := [JStr "legacy"; JStr "stable"; JStr "beta"].

(** The state of the popup document. [toggles] and [loaders] are the class
    lists of the elements matched by ['.toggle'] and ['.loader']. *)
Record Popup : Type := {
  SPEC_SELECT : HTMLSelectElement;
  LANG_SELECT : HTMLSelectElement;
  API_SELECT : HTMLSelectElement;
  toggles : list (gset string);
  loaders : list (gset string)
}.

Definition getSelectedLang (st : Popup) : string := select_value (LANG_SELECT st).

Definition getSelectedAPIEndpoint (st : Popup) : string := select_value (API_SELECT st).

Definition getRunAndShowCode (st : Popup) (version : string) : string :=
  "liToJrInstance.preferLocale = '" +:+ getSelectedLang st
  +:+ "';liToJrInstance.parseAndShowOutput('" +:+ version +:+ "');".

Definition toggleEnabled (isEnabled : bool) (st : Popup) : Popup :=
  {| SPEC_SELECT := SPEC_SELECT st;
     LANG_SELECT := LANG_SELECT st;
     API_SELECT := API_SELECT st;
     toggles :=
       (fun elem =>
          classList_add (if isEnabled then "enabled" else "disabled")
            (classList_remove (if isEnabled then "disabled" else "enabled") elem))
       <$> toggles st;
     loaders := loaders st |}.

Definition showLoader (isEnabled : bool) (st : Popup) : Popup :=
  {| SPEC_SELECT := SPEC_SELECT st;
     LANG_SELECT := LANG_SELECT st;
     API_SELECT := API_SELECT st;
     toggles := toggles st;
     loaders :=
       (fun elem =>
          if isEnabled then classList_remove "hidden" elem
          else classList_add "hidden" elem)
       <$> loaders st |}.

Definition loadLangs (langs : list string) (st : Popup) : Popup :=
  let st :=
    {| SPEC_SELECT := SPEC_SELECT st;
       LANG_SELECT :=
         replace_options ((fun lang => {| value := lang; innerText := lang |}) <$> langs);
       API_SELECT := API_SELECT st;
       toggles := toggles st;
       loaders := loaders st |} in
  toggleEnabled (0 <? Z.of_nat (length langs)) st.

(** [api_endpoint.url] and [api_endpoint.name]: undefined on a primitive. *)
Definition entry_url (e : EndpointEntry) : option string :=
  match e with EDescriptor d => Some (url d) | _ => None end.
Definition entry_name (e : EndpointEntry) : option string :=
  match e with EDescriptor d => Some (name d) | _ => None end.

(** Assigning to a string attribute of an element converts to a string. *)
Definition DOMString (v : option string) : string := default "undefined" v.

(** The body of the [forEach] in [loadApiEndpoints]: the options appended
    for one entry. *)
Definition endpoint_option (api_endpoint : EndpointEntry) : list HTMLOptionElement :=
  if entry_truthy api_endpoint
  then [ {| value := DOMString (entry_url api_endpoint);
            innerText := DOMString (entry_name api_endpoint) |} ]
  else [].

Definition loadApiEndpoints (api_endpoints : list EndpointEntry) (st : Popup) : Popup :=
  let st :=
    {| SPEC_SELECT := SPEC_SELECT st;
       LANG_SELECT := LANG_SELECT st;
       API_SELECT := replace_options (api_endpoints ≫= endpoint_option);
       toggles := toggles st;
       loaders := loaders st |} in
  toggleEnabled (0 <? Z.of_nat (length api_endpoints)) st.

Definition setLang (lang : string) : Eff unit :=
  perform (ExecuteScript ("liToJrInstance.preferLocale = '" +:+ lang +:+ "';"));;
  perform (ExecuteScript
    "console.log(liToJrInstance);console.log(liToJrInstance.preferLocale);").

Definition setApiEndpoint (endpoint : string) : Eff unit :=
  perform (ExecuteScript ("liToJrInstance.apiEndpoint = '" +:+ endpoint +:+ "';"));;
  perform (ExecuteScript
    "console.log(liToJrInstance);console.log(liToJrInstance.apiEndpoint);").

Definition setSpecVersion (version : string) (area : StorageArea)
  : StorageArea * Eff unit :=
  chrome_storage_sync_set {[ STORAGE_KEYS_schemaVersion := JStr version ]} area.

(** [getSpecVersion].  The [try] guards the call into the storage API; the
    callback handed to it runs later, when the [try] has been left, and does
    not look at [chrome.runtime.lastError]. *)
Definition getSpecVersion (st : Popup) (area : StorageArea) : Eff (Promise JsValue) :=
  let fallbackVersion := JStr (select_value (SPEC_SELECT st)) in
  new_Promise
    (try_catch
       (chrome_storage_sync_get [STORAGE_KEYS_schemaVersion]
          (fun result =>
             stored ← prop_of_result result STORAGE_KEYS_schemaVersion;
             let storedSetting := js_or stored (JStr "") in
             if includes SPEC_OPTIONS storedSetting
             then mret (Some storedSetting)
             else mret (Some fallbackVersion))
          area)
       (fun err =>
          perform (ConsoleError (LogError err));;
          mret (Some fallbackVersion))).

(** The click handler of [liToApiButton]. *)
Definition liToApiButton_click (st : Popup) : Eff Popup :=
  perform (ConsoleLog (LogText "selected API endpoint: " (getSelectedAPIEndpoint st)));;
  let st := showLoader true st in
  perform (ExecuteScript
    ("liToJrInstance.preferLocale = '" +:+ getSelectedLang st
     +:+ "';liToJrInstance.parseAndSendToApi('" +:+ getSelectedAPIEndpoint st +:+ "');"));;
  mret st.

(** The click handler of [liToJsonDownloadButton]. *)
Definition liToJsonDownloadButton_click (st : Popup) : Eff Popup :=
  perform (ExecuteScript
    ("liToJrInstance.preferLocale = '" +:+ getSelectedLang st
     +:+ "';liToJrInstance.parseAndDownload();"));;
  mret st.

(** ** The code injected into the content-script scope *)

Definition createMainInstanceCode : string := "
isDebug = window.location.href.includes('li2jr_debug=true');
window.LinkedinToResumeJson = isDebug ? LinkedinToResumeJson : window.LinkedinToResumeJson;
// Reuse existing instance if possible
liToJrInstance = typeof(liToJrInstance) !== 'undefined' ? liToJrInstance : new LinkedinToResumeJson(isDebug);
".

Section Messaging.

(** [chrome.runtime.id] *)
Variable extensionId : string.

(** [optKey || valueToCapture], with [None] for an omitted argument. *)
Definition createMessageSenderInjectable (valueToCapture : string)
    (optKey : option string) : string :=
  let k := match optKey with
           | Some k => if String.eqb k "" then valueToCapture else k
           | None => valueToCapture
           end in
  "chrome.runtime.sendMessage('" +:+ extensionId +:+ "', {
        key: '" +:+ k +:+ "',
        value: " +:+ valueToCapture +:+ "
    });".

Definition getLangStringsCode : string :=
  "(async () => {
    const supported = await liToJrInstance.getSupportedLocales();
    const user = liToJrInstance.getViewersLocalLang();
    const payload = {
        supported,
        user
    }
    " +:+ createMessageSenderInjectable "payload" (Some "locales") +:+ "
})();
".

(** The listener registered with [chrome.runtime.onMessage].  The fetch
    of the bundled list is an effect; its answer comes back through
    [loadApiEndpoints]. *)
Definition onMessage (message : Message) (sender : MessageSender) (st : Popup)
  : Eff Popup :=
  perform (ConsoleLog (LogMessage message));;
  if bool_decide (id sender = Some extensionId)
     && bool_decide (key message = "locales")
  then
    match mvalue message with
    | LocalesReport supported user =>
        let supported := userLocaleFirst supported user in
        let st := loadLangs supported st in
        perform (FetchResource "./endpoints.json");;
        mret st
    | Malformed _ => throw TypeError
    end
  else mret st.

(** The dispatches made when the popup opens. *)
Definition init : Eff unit :=
  perform (ExecuteFile "main.js");;
  perform (ExecuteScript (createMainInstanceCode +:+ getLangStringsCode)).

End Messaging.

(** ** The content-script scope *)


Section RemoteScope.

(** The logic object of main.js and its constructor. *)
Variable Instance : Type.
Variable LinkedinToResumeJson : bool -> Instance.

(** The content-script scope of the page: the globals the injected code
    reads and assigns, and the arguments of the constructor calls made so
    far, oldest first. *)
Record Scope : Type := {
  location_href : string;
  isDebug : option bool;
  liToJrInstance : option Instance;
  constructed : list bool
}.

(** What executing [createMainInstanceCode] does to the scope.
    [typeof(liToJrInstance) !== 'undefined'] holds when the global is
    bound.  The second statement rebinds the class to itself. *)
Definition run_createMainInstanceCode (s : Scope) : Scope :=
  let isDebug := str_includes (location_href s) "li2jr_debug=true" in
  match liToJrInstance s with
  | Some existing =>
      {| location_href := location_href s;
         isDebug := Some isDebug;
         liToJrInstance := Some existing;
         constructed := constructed s |}
  | None =>
      {| location_href := location_href s;
         isDebug := Some isDebug;
         liToJrInstance := Some (LinkedinToResumeJson isDebug);
         constructed := constructed s ++ [isDebug] |}
  end.

(** The other payloads the popup dispatches assign to properties of the
    bound instance or call its methods; against an unbound global they
    throw and change nothing. *)
Inductive Dispatch : Type :=
| Bootstrap
| Command (update : Instance -> Instance).

Definition run_dispatch (d : Dispatch) (s : Scope) : Scope :=
  match d with
  | Bootstrap => run_createMainInstanceCode s
  | Command update =>
      {| location_href := location_href s;
         isDebug := isDebug s;
         liToJrInstance := update <$> liToJrInstance s;
         constructed := constructed s |}
  end.

(** Dispatches execute in the order they were sent. *)
Definition run_all (ds : list Dispatch) (s : Scope) : Scope :=
  foldl (fun s d => run_dispatch d s) s ds.

End RemoteScope.

Arguments location_href {Instance} _.
Arguments isDebug {Instance} _.
Arguments liToJrInstance {Instance} _.
Arguments constructed {Instance} _.
Arguments Bootstrap {Instance}.
Arguments Command {Instance} _.
Arguments run_createMainInstanceCode {Instance} _ _.
Arguments run_dispatch {Instance} _ _ _.
Arguments run_all {Instance} _ _ _.

(** A popup with one option in each selector, for the examples below. *)
Definition popup_showing (version lang endpoint : string) : Popup :=
  {| SPEC_SELECT := replace_options [ {| value := version; innerText := version |} ];
     LANG_SELECT := replace_options [ {| value := lang; innerText := lang |} ];
     API_SELECT := replace_options [ {| value := endpoint; innerText := endpoint |} ];
     toggles := [ {[ "toggle" ]} ];
     loaders := [ {[ "loader"; "hidden" ]} ] |}.

(** ** The remaining listeners and the start-up code *)

(** The user picking the option at [index] of a selector. *)
Definition choose (index : nat) (sel : HTMLSelectElement) : HTMLSelectElement :=
  {| options := options sel; selectedIndex := index |}.

(** [select.value = v]: the first option with that value becomes the
    selected one; when there is none no option is selected, which an index
    past the last option stands for. *)
Definition set_select_value (v : string) (sel : HTMLSelectElement) : HTMLSelectElement :=
  {| options := options sel;
     selectedIndex :=
       match list_find (fun o => value o = v) (options sel) with
       | Some (i, _) => i
       | None => length (options sel)
       end |}.

Definition with_SPEC_SELECT (sel : HTMLSelectElement) (st : Popup) : Popup :=
  {| SPEC_SELECT := sel;
     LANG_SELECT := LANG_SELECT st;
     API_SELECT := API_SELECT st;
     toggles := toggles st;
     loaders := loaders st |}.

Definition with_LANG_SELECT (sel : HTMLSelectElement) (st : Popup) : Popup :=
  {| SPEC_SELECT := SPEC_SELECT st;
     LANG_SELECT := sel;
     API_SELECT := API_SELECT st;
     toggles := toggles st;
     loaders := loaders st |}.

Definition with_API_SELECT (sel : HTMLSelectElement) (st : Popup) : Popup :=
  {| SPEC_SELECT := SPEC_SELECT st;
     LANG_SELECT := LANG_SELECT st;
     API_SELECT := sel;
     toggles := toggles st;
     loaders := loaders st |}.

(** The [change] listeners of the three selectors. *)
Definition LANG_SELECT_change (st : Popup) : Eff unit :=
  setLang (getSelectedLang st).

Definition API_SELECT_change (st : Popup) : Eff unit :=
  setApiEndpoint (getSelectedAPIEndpoint st).

Definition SPEC_SELECT_change (st : Popup) (area : StorageArea)
  : StorageArea * Eff unit :=
  setSpecVersion (select_value (SPEC_SELECT st)) area.

Section TemplateLiterals.

(** The conversion to a string of a value interpolated into a template
    literal or assigned to [select.value]. *)
Variable ToString : JsValue -> string.

(** The click handler of [liToJsonButton].  It awaits the stored version:
    a rejection surfaces as an exception of the handler, and nothing
    follows a promise that stays pending.  The second component is the
    delay of the timer that closes the popup, once the dispatch callback
    has set it. *)
Definition liToJsonButton_click (st : Popup) (area : StorageArea)
  : Eff (Popup * option Z) :=
  settled ← getSpecVersion st area;
  match settled with
  | Fulfilled versionOption =>
      let runAndShowCode := getRunAndShowCode st (ToString versionOption) in
      perform (ExecuteScript runAndShowCode);;
      mret (st, Some 700)
  | Rejected e => throw e
  | Pending => mret (st, None)
  end.

(** The last statement of the script:
    [getSpecVersion().then((spec) => { SPEC_SELECT.value = spec; })]. *)
Definition init_SPEC_SELECT (st : Popup) (area : StorageArea) : Eff Popup :=
  settled ← getSpecVersion st area;
  match settled with
  | Fulfilled spec =>
      mret (with_SPEC_SELECT (set_select_value (ToString spec) (SPEC_SELECT st)) st)
  | Rejected _ | Pending => mret st
  end.

End TemplateLiterals.

(** Whether a dispatch is the bootstrap code. *)
Definition is_Bootstrap {Instance : Type} (d : Dispatch Instance) : bool :=
  match d with
  | Bootstrap => true
  | Command _ => false
  end.

(** * Properties *)

(** ** Array methods *)

Section ArrayFacts.
Context {A : Type} `{EqDecision A}.
Implicit Types (arr before after : list A) (x : A).

Lemma includes_elem_of arr x : includes arr x = true ↔ x ∈ arr.
Proof.
  unfold includes. rewrite existsb_exists. split.
  - intros (y & Hin & Hy). apply bool_decide_eq_true in Hy. subst y.
    by apply list_elem_of_In.
  - intros Hin. exists x. split; [by apply list_elem_of_In|].
    by apply bool_decide_eq_true.
Qed.

Lemma includes_false arr x : includes arr x = false ↔ x ∉ arr.
Proof.
  rewrite <- includes_elem_of. destruct (includes arr x); naive_solver.
Qed.

(** [indexOf] finds the first occurrence. *)
Lemma indexOf_from_first before after x i :
  x ∉ before →
  indexOf_from (before ++ (x :: after)) x i = i + Z.of_nat (length before).
Proof.
  revert i. induction before as [|y before IH]; intros i Hnot; simpl.
  - rewrite decide_True by done. lia.
  - apply not_elem_of_cons in Hnot as [Hne Hnot].
    rewrite decide_False by done. rewrite IH by done. lia.
Qed.

Lemma indexOf_first before after x :
  x ∉ before → indexOf (before ++ (x :: after)) x = Z.of_nat (length before).
Proof. intros Hnot. unfold indexOf. by rewrite indexOf_from_first. Qed.

(** Deleting one element at an index inside the array. *)
Lemma splice_one before after x :
  splice (before ++ (x :: after)) (Z.of_nat (length before)) 1 = before ++ after.
Proof.
  unfold splice.
  assert (Z.of_nat (length (before ++ (x :: after)))
          = Z.of_nat (length before) + 1 + Z.of_nat (length after)) as ->
    by (rewrite length_app; simpl; lia).
  set (n := Z.of_nat (length before)). set (m := Z.of_nat (length after)).
  assert ((n <? 0) = false) as -> by lia.
  replace (Z.min n (n + 1 + m)) with n by lia.
  replace (Z.min (Z.max 1 0) (n + 1 + m - n)) with 1 by lia.
  subst n m.
  rewrite Nat2Z.id.
  replace (Z.to_nat (Z.of_nat (length before) + 1)) with (S (length before)) by lia.
  rewrite take_app_length.
  replace (before ++ (x :: after)) with ((before ++ [x]) ++ after)
    by (by rewrite <- app_assoc).
  rewrite drop_app_length'; [done|]. rewrite length_app. simpl. lia.
Qed.
End ArrayFacts.

(** ** Locale merge *)

Example userLocaleFirst_present :
  userLocaleFirst ["en"; "fr"; "de"] "fr" = ["fr"; "en"; "de"].
Proof. reflexivity. Qed.

Example userLocaleFirst_missing :
  userLocaleFirst ["en"; "de"] "fr" = ["fr"; "en"; "de"].
Proof. reflexivity. Qed.

Example userLocaleFirst_repeated_user :
  userLocaleFirst ["fr"; "en"; "fr"] "fr" = ["fr"; "en"; "fr"].
Proof. reflexivity. Qed.

Lemma userLocaleFirst_without supported user :
  user ∉ supported → userLocaleFirst supported user = user :: supported.
Proof.
  intros Hnot. unfold userLocaleFirst.
  by rewrite (proj2 (includes_false supported user) Hnot).
Qed.

Lemma userLocaleFirst_with before after user :
  user ∉ before →
  userLocaleFirst (before ++ (user :: after)) user = user :: (before ++ after).
Proof.
  intros Hnot. unfold userLocaleFirst.
  rewrite (proj2 (includes_elem_of (before ++ (user :: after)) user)) by set_solver.
  by rewrite indexOf_first, splice_one.
Qed.

(** The merged list is the user's locale followed by the supported ones
    without the first occurrence of the user's. *)
Lemma userLocaleFirst_shape supported user :
  ((user ∉ supported) ∧ userLocaleFirst supported user = user :: supported)
  ∨ (∃ before after,
       supported = before ++ (user :: after) ∧ (user ∉ before)
       ∧ userLocaleFirst supported user = user :: (before ++ after)).
Proof.
  destruct (decide (user ∈ supported)) as [Hin|Hnot].
  - right. apply list_elem_of_split_l in Hin as (before & after & -> & Hnot).
    exists before, after. by rewrite userLocaleFirst_with.
  - left. by rewrite userLocaleFirst_without.
Qed.

Lemma occurrences_cons x y l :
  occurrences x (y :: l) = ((if decide (y = x) then 1 else 0) + occurrences x l)%nat.
Proof. unfold occurrences. rewrite filter_cons. by case_decide. Qed.

Lemma occurrences_app x l k :
  occurrences x (l ++ k) = (occurrences x l + occurrences x k)%nat.
Proof. unfold occurrences. by rewrite filter_app, length_app. Qed.

Lemma occurrences_none x l : x ∉ l → occurrences x l = 0%nat.
Proof.
  induction l as [|y l IH]; [done|]. intros [Hne Hnot]%not_elem_of_cons.
  rewrite occurrences_cons, decide_False by done. by rewrite IH.
Qed.

Lemma occurrences_NoDup x l : NoDup l → x ∈ l → occurrences x l = 1%nat.
Proof.
  induction 1 as [|y l Hy Hnd IH]; [by intros ?%elem_of_nil|].
  rewrite occurrences_cons. intros [->|Hin]%elem_of_cons.
  - rewrite decide_True by done. by rewrite occurrences_none.
  - rewrite decide_False by (intros ->; done). by rewrite IH.
Qed.

Lemma userLocaleFirst_elem_of supported user x :
  x ∈ userLocaleFirst supported user ↔ x = user ∨ x ∈ supported.
Proof.
  destruct (userLocaleFirst_shape supported user)
    as [[_ ->]|(before & after & -> & _ & ->)];
    rewrite ?elem_of_cons, ?elem_of_app, ?elem_of_cons; tauto.
Qed.

Lemma userLocaleFirst_occurrences_other supported user x :
  x ≠ user →
  occurrences x (userLocaleFirst supported user) = occurrences x supported.
Proof.
  intros Hne.
  destruct (userLocaleFirst_shape supported user)
    as [[_ ->]|(before & after & -> & _ & ->)];
    rewrite ?occurrences_cons, ?occurrences_app, ?occurrences_cons;
    rewrite !decide_False by done; lia.
Qed.

Lemma userLocaleFirst_occurrences_user supported user :
  occurrences user (userLocaleFirst supported user)
  = Nat.max 1 (occurrences user supported).
Proof.
  destruct (userLocaleFirst_shape supported user)
    as [[Hnot ->]|(before & after & -> & Hnot & ->)];
    rewrite ?occurrences_cons, ?occurrences_app, ?occurrences_cons;
    rewrite !decide_True by done.
  - rewrite occurrences_none by done. lia.
  - lia.
Qed.

(** C1, as the script implements it: the merged list is [user] followed by
    [supported] without the first occurrence of [user].  Index 0 holds
    [user]; the entries that remain keep their order; every other code
    occurs as often as in [supported], and [user] once, or as often as in
    [supported] when that is more.  The merge removes no other duplicate:
    each element of [supported] and [user] occur exactly once in the result
    when [supported] has no duplicates. *)
Theorem userLocaleFirst_spec (supported : list string) (user : string) :
  userLocaleFirst supported user !! 0%nat = Some user
  ∧ (((user ∉ supported) ∧ tail (userLocaleFirst supported user) = supported)
     ∨ (∃ before after,
          supported = before ++ (user :: after) ∧ (user ∉ before)
          ∧ tail (userLocaleFirst supported user) = before ++ after))
  ∧ tail (userLocaleFirst supported user) `sublist_of` supported
  ∧ (∀ x, x ∈ userLocaleFirst supported user ↔ x = user ∨ x ∈ supported)
  ∧ (∀ x, x ≠ user →
          occurrences x (userLocaleFirst supported user) = occurrences x supported)
  ∧ occurrences user (userLocaleFirst supported user)
    = Nat.max 1 (occurrences user supported)
  ∧ (NoDup supported →
     NoDup (userLocaleFirst supported user)
     ∧ ∀ x, x = user ∨ x ∈ supported →
            occurrences x (userLocaleFirst supported user) = 1%nat).
Proof.
  set (merged := userLocaleFirst supported user).
  assert (tail merged `sublist_of` supported) as Hsub.
  { subst merged.
    destruct (userLocaleFirst_shape supported user)
      as [[_ ->]|(before & after & -> & _ & ->)]; simpl; [done|].
    apply sublist_app; [done|]. by apply sublist_cons. }
  assert (∃ rest, merged = user :: rest) as [rest Hrest].
  { subst merged. unfold userLocaleFirst, unshift. eauto. }
  split_and!.
  - by rewrite Hrest.
  - subst merged.
    destruct (userLocaleFirst_shape supported user)
      as [[Hnot ->]|(before & after & -> & Hnot & ->)]; [by left|].
    right. by exists before, after.
  - done.
  - intros x. apply userLocaleFirst_elem_of.
  - intros x. apply userLocaleFirst_occurrences_other.
  - apply userLocaleFirst_occurrences_user.
  - intros Hnd.
    assert (NoDup merged) as Hnd'.
    { rewrite Hrest in *. simpl in Hsub. apply NoDup_cons. split.
      - intros Hin.
        assert (occurrences user (user :: rest) = 1%nat) as Hone.
        { rewrite <- Hrest. subst merged.
          rewrite userLocaleFirst_occurrences_user.
          destruct (decide (user ∈ supported)) as [Hin'|Hnot].
          - by rewrite occurrences_NoDup.
          - by rewrite occurrences_none. }
        rewrite occurrences_cons, decide_True in Hone by done.
        assert (occurrences user rest = 0%nat) as Hzero by lia.
        unfold occurrences in Hzero. apply length_zero_iff_nil in Hzero.
        assert (user ∈ filter (λ y, y = user) rest) as Hf
          by (by apply list_elem_of_filter).
        rewrite Hzero in Hf. by apply elem_of_nil in Hf.
      - by eapply sublist_NoDup. }
    split; [done|]. intros x Hx.
    apply occurrences_NoDup; [done|]. by apply userLocaleFirst_elem_of.
Qed.

(** The instance of the previous theorem the spec gives as an example. *)
Lemma userLocaleFirst_spec_witness :
  NoDup ["en"; "fr"; "de"]
  ∧ occurrences "de" (userLocaleFirst ["en"; "fr"; "de"] "fr") = 1%nat.
Proof.
  assert (NoDup ["en"; "fr"; "de"]) as Hnd
    by (apply (bool_decide_unpack _); vm_compute; exact I).
  split; [exact Hnd|].
  destruct (userLocaleFirst_spec ["en"; "fr"; "de"] "fr")
    as (_ & _ & _ & _ & _ & _ & Hone).
  apply (Hone Hnd). right. apply (bool_decide_unpack _). vm_compute. exact I.
Defined.

(** C1 as written fails on a supported list with a repeated code: nothing
    in the merge removes the second ["en"]. *)
Lemma userLocaleFirst_keeps_duplicates :
  userLocaleFirst ["en"; "en"] "fr" = ["fr"; "en"; "en"]
  ∧ "en" ∈ ["en"; "en"]
  ∧ occurrences "en" (userLocaleFirst ["en"; "en"] "fr") ≠ 1%nat.
Proof.
  split_and!; [reflexivity|by apply list_elem_of_here|vm_compute; lia].
Qed.

(** C7: when [user] is not among [supported] the merged list is one longer;
    for an empty [supported] it is [[user]]; and the language selector
    filled from the merged list has [user] selected. *)
Theorem userLocaleFirst_absent (supported : list string) (user : string) (st : Popup) :
  user ∉ supported →
  length (userLocaleFirst supported user) = S (length supported)
  ∧ userLocaleFirst [] user = [user]
  ∧ getSelectedLang (loadLangs (userLocaleFirst [] user) st) = user
  ∧ getSelectedLang (loadLangs (userLocaleFirst supported user) st) = user.
Proof.
  intros Hnot. rewrite userLocaleFirst_without by done. done.
Qed.

Lemma userLocaleFirst_absent_witness :
  length (userLocaleFirst ["en"; "de"] "fr") = 3%nat.
Proof.
  refine (proj1 (userLocaleFirst_absent ["en"; "de"] "fr"
    {| SPEC_SELECT := replace_options []; LANG_SELECT := replace_options [];
       API_SELECT := replace_options []; toggles := []; loaders := [] |} _)).
  apply (bool_decide_unpack _). vm_compute. exact I.
Defined.

(** ** The stored schema version *)

Lemma prop_requested (stored : gmap string JsValue) (k : string) :
  prop (filter (λ kv, kv.1 ∈ [k]) stored) k = prop stored k.
Proof.
  unfold prop. rewrite map_lookup_filter.
  destruct (stored !! k) as [v|]; simpl; [|done].
  rewrite option_guard_True; [done|]. simpl. apply list_elem_of_here.
Qed.

Lemma SPEC_OPTIONS_truthy (v : JsValue) : v ∈ SPEC_OPTIONS → truthy v = true.
Proof.
  unfold SPEC_OPTIONS. rewrite !elem_of_cons, elem_of_nil.
  intros [->|[->|[->|[]]]]; reflexivity.
Qed.

(** What the callback of [getSpecVersion] passes to [res]. *)
Lemma storedSetting_choice (v fallback : JsValue) :
  let storedSetting := js_or v (JStr "") in
  (if includes SPEC_OPTIONS storedSetting then storedSetting else fallback)
  = if decide (v ∈ SPEC_OPTIONS) then v else fallback.
Proof.
  cbv zeta. unfold js_or. case_decide as Hv.
  - rewrite (SPEC_OPTIONS_truthy v Hv).
    by rewrite (proj2 (includes_elem_of SPEC_OPTIONS v) Hv).
  - destruct (truthy v).
    + by rewrite (proj2 (includes_false SPEC_OPTIONS v) Hv).
    + reflexivity.
Qed.

Lemma failing_false (area : StorageArea) :
  failing area = false ↔ health area = Working.
Proof. unfold failing. by destruct (health area). Qed.

Lemma getSpecVersion_throwing (st : Popup) (area : StorageArea) :
  health area = Throwing →
  getSpecVersion st area
  = ([ConsoleError (LogError StorageError)],
     Ok (Fulfilled (JStr (select_value (SPEC_SELECT st))))).
Proof.
  intros Hhealth. unfold getSpecVersion, chrome_storage_sync_get.
  rewrite Hhealth. reflexivity.
Qed.

Lemma getSpecVersion_unanswered (st : Popup) (area : StorageArea) :
  health area = ReportingError →
  getSpecVersion st area = ([], Ok Pending).
Proof.
  intros Hhealth. unfold getSpecVersion, chrome_storage_sync_get.
  rewrite Hhealth. reflexivity.
Qed.

Lemma getSpecVersion_reading (st : Popup) (area : StorageArea) :
  failing area = false →
  getSpecVersion st area
  = ([], Ok (Fulfilled
       (if decide (prop (items area) STORAGE_KEYS_schemaVersion ∈ SPEC_OPTIONS)
        then prop (items area) STORAGE_KEYS_schemaVersion
        else JStr (select_value (SPEC_SELECT st))))).
Proof.
  intros Hhealth%failing_false. unfold getSpecVersion, chrome_storage_sync_get.
  rewrite Hhealth. cbn [prop_of_result mret Eff_ret mbind Eff_bind].
  rewrite prop_requested.
  pose proof (storedSetting_choice (prop (items area) STORAGE_KEYS_schemaVersion)
                (JStr (select_value (SPEC_SELECT st)))) as Hchoice.
  cbv zeta in Hchoice. rewrite <- Hchoice.
  by destruct (includes SPEC_OPTIONS _).
Qed.

(** What [getSpecVersion] does when the read works or the call throws: it
    resolves to the stored value when that is one of the three options, and
    to the value shown in the selector when the call throws, when nothing
    is stored, and when what is stored is not an option.  On no storage
    state does it throw or reject. *)
Lemma getSpecVersion_fallback (st : Popup) (area : StorageArea) :
  (∀ v, failing area = false →
        items area !! STORAGE_KEYS_schemaVersion = Some v → v ∈ SPEC_OPTIONS →
        outcome (getSpecVersion st area) = Ok (Fulfilled v))
  ∧ (health area = Throwing →
     outcome (getSpecVersion st area)
     = Ok (Fulfilled (JStr (select_value (SPEC_SELECT st)))))
  ∧ (failing area = false → items area !! STORAGE_KEYS_schemaVersion = None →
     outcome (getSpecVersion st area)
     = Ok (Fulfilled (JStr (select_value (SPEC_SELECT st)))))
  ∧ (∀ v, failing area = false →
          items area !! STORAGE_KEYS_schemaVersion = Some v → v ∉ SPEC_OPTIONS →
          outcome (getSpecVersion st area)
          = Ok (Fulfilled (JStr (select_value (SPEC_SELECT st)))))
  ∧ (∀ e, outcome (getSpecVersion st area) ≠ Throw e
          ∧ outcome (getSpecVersion st area) ≠ Ok (Rejected e)).
Proof.
  split_and!.
  - intros v Hfail Hstored Hv. rewrite getSpecVersion_reading by done.
    unfold prop. rewrite Hstored. by rewrite decide_True.
  - intros Hfail. by rewrite getSpecVersion_throwing.
  - intros Hfail Hstored. rewrite getSpecVersion_reading by done.
    unfold prop. rewrite Hstored. rewrite decide_False; [done|].
    unfold SPEC_OPTIONS. rewrite !elem_of_cons, elem_of_nil. simpl.
    intros [?|[?|[?|[]]]]; discriminate.
  - intros v Hfail Hstored Hv. rewrite getSpecVersion_reading by done.
    unfold prop. rewrite Hstored. by rewrite decide_False.
  - intros e. destruct (health area) eqn:Hhealth.
    + rewrite getSpecVersion_reading by (by apply failing_false). done.
    + rewrite getSpecVersion_throwing by done. done.
    + rewrite getSpecVersion_unanswered by done. done.
Qed.

(** C3 at a read that fails the way the storage API reports failures, with
    [chrome.runtime.lastError] set and no result object for the callback:
    the callback throws on [result[...]] when the [try] has long been left,
    [res] is never called, and the promise stays pending instead of
    resolving to the value shown in the selector.  Nothing is logged. *)
Theorem getSpecVersion_reported_failure (st : Popup) (stored : gmap string JsValue) :
  outcome (getSpecVersion st {| items := stored; health := ReportingError |})
  = Ok Pending
  ∧ outcome (getSpecVersion st {| items := stored; health := ReportingError |})
    ≠ Ok (Fulfilled (JStr (select_value (SPEC_SELECT st))))
  ∧ effects (getSpecVersion st {| items := stored; health := ReportingError |}) = [].
Proof.
  rewrite getSpecVersion_unanswered by done. done.
Qed.

(** C9: when the selector shows one of the three options, whatever
    [getSpecVersion] resolves to is one of them, on every storage state;
    and it does resolve, unless the read fails through the callback. *)
Theorem getSpecVersion_in_SPEC_OPTIONS (st : Popup) (area : StorageArea) :
  JStr (select_value (SPEC_SELECT st)) ∈ SPEC_OPTIONS →
  (∀ v, outcome (getSpecVersion st area) = Ok (Fulfilled v) → v ∈ SPEC_OPTIONS)
  ∧ (health area ≠ ReportingError →
     ∃ v, outcome (getSpecVersion st area) = Ok (Fulfilled v) ∧ v ∈ SPEC_OPTIONS).
Proof.
  intros Hui. destruct (health area) eqn:Hhealth.
  - rewrite getSpecVersion_reading by (by apply failing_false).
    split.
    + intros v [= <-]. by case_decide.
    + intros _. case_decide; eauto.
  - rewrite getSpecVersion_throwing by done. split.
    + by intros v [= <-].
    + eauto.
  - rewrite getSpecVersion_unanswered by done. split; [|done].
    intros v Hv. discriminate Hv.
Qed.

Lemma getSpecVersion_in_SPEC_OPTIONS_witness :
  ∃ v, outcome (getSpecVersion (popup_showing "legacy" "en" "https://api.example.com")
                  {| items := {[ "schemaVersion" := JNum 2 ]}; health := Throwing |})
       = Ok (Fulfilled v)
       ∧ v ∈ SPEC_OPTIONS.
Proof.
  apply (getSpecVersion_in_SPEC_OPTIONS
           (popup_showing "legacy" "en" "https://api.example.com")
           {| items := {[ "schemaVersion" := JNum 2 ]}; health := Throwing |}).
  - apply (bool_decide_unpack _). vm_compute. exact I.
  - discriminate.
Defined.

(** C10: [setSpecVersion] leaves every stored key other than
    [schemaVersion] as it was. *)
Theorem setSpecVersion_frame (version : string) (area : StorageArea) (k : string) :
  k ≠ STORAGE_KEYS_schemaVersion →
  items (setSpecVersion version area).1 !! k = items area !! k.
Proof.
  intros Hk. unfold setSpecVersion, chrome_storage_sync_set.
  destruct (health area); simpl; [|done|done].
  rewrite lookup_union_r; [done|]. by rewrite lookup_singleton_ne.
Qed.

Lemma setSpecVersion_frame_witness :
  items (setSpecVersion "stable"
           {| items := {[ "schemaVersion" := JStr "beta"; "theme" := JStr "dark" ]};
              health := Working |}).1 !! "theme"
  = Some (JStr "dark").
Proof.
  rewrite (setSpecVersion_frame "stable" _ "theme").
  - vm_compute. reflexivity.
  - discriminate.
Defined.

Lemma setSpecVersion_stores (version : string) (area : StorageArea) :
  failing area = false →
  items (setSpecVersion version area).1 !! STORAGE_KEYS_schemaVersion
  = Some (JStr version).
Proof.
  intros Hhealth%failing_false. unfold setSpecVersion, chrome_storage_sync_set.
  rewrite Hhealth. cbn [fst items]. apply lookup_union_Some_l.
  apply lookup_singleton_eq.
Qed.

Lemma setSpecVersion_health (version : string) (area : StorageArea) :
  health (setSpecVersion version area).1 = health area.
Proof.
  unfold setSpecVersion, chrome_storage_sync_set.
  by destruct (health area) eqn:Hhealth.
Qed.

Lemma setSpecVersion_failing (version : string) (area : StorageArea) :
  failing (setSpecVersion version area).1 = failing area.
Proof. unfold failing. by rewrite setSpecVersion_health. Qed.

(** ** The message listener *)

(** C4: the listener leaves the popup as it was, with nothing but the log
    line and no exception, exactly when the sender is not this extension or
    the key is not ['locales']; a locales report from this extension is
    processed: the language selector is refilled and the endpoint list is
    fetched. *)
Theorem onMessage_filter (extensionId : string) (message : Message)
    (sender : MessageSender) (st : Popup) :
  (¬ (id sender = Some extensionId ∧ key message = "locales") →
   onMessage extensionId message sender st
   = ([ConsoleLog (LogMessage message)], Ok st))
  ∧ (id sender = Some extensionId ∧ key message = "locales" →
     onMessage extensionId message sender st
     ≠ ([ConsoleLog (LogMessage message)], Ok st))
  ∧ (id sender = Some extensionId ∧ key message = "locales" →
     ∀ supported user,
       mvalue message = LocalesReport supported user →
       onMessage extensionId message sender st
       = ([ConsoleLog (LogMessage message); FetchResource "./endpoints.json"],
          Ok (loadLangs (userLocaleFirst supported user) st))).
Proof.
  unfold onMessage.
  destruct (decide (id sender = Some extensionId)) as [Hid|Hid];
    destruct (decide (key message = "locales")) as [Hkey|Hkey].
  - rewrite !bool_decide_eq_true_2 by done. split_and!.
    + intros Hnot. destruct Hnot. done.
    + intros _. destruct (mvalue message); discriminate.
    + intros _ supported user ->. reflexivity.
  - rewrite (bool_decide_eq_false_2 (key message = "locales")) by done.
    rewrite andb_false_r. split_and!; [done|tauto|tauto].
  - rewrite (bool_decide_eq_false_2 (id sender = Some extensionId)) by done.
    split_and!; [done|tauto|tauto].
  - rewrite (bool_decide_eq_false_2 (id sender = Some extensionId)) by done.
    split_and!; [done|tauto|tauto].
Qed.

Lemma onMessage_filter_witness :
  onMessage "abcdefghijklmnop" {| key := "unknown"; mvalue := LocalesReport ["en"] "fr" |}
    {| id := Some "abcdefghijklmnop" |} (popup_showing "beta" "en" "u1")
  = ([ConsoleLog (LogMessage {| key := "unknown"; mvalue := LocalesReport ["en"] "fr" |})],
     Ok (popup_showing "beta" "en" "u1")).
Proof.
  apply (proj1 (onMessage_filter "abcdefghijklmnop"
    {| key := "unknown"; mvalue := LocalesReport ["en"] "fr" |}
    {| id := Some "abcdefghijklmnop" |} (popup_showing "beta" "en" "u1"))).
  simpl. intros [_ Hkey]. discriminate Hkey.
Defined.

(** ** The endpoint list *)

Lemma loadApiEndpoints_options (api_endpoints : list EndpointEntry) (st : Popup) :
  options (API_SELECT (loadApiEndpoints api_endpoints st))
  = api_endpoints ≫= endpoint_option.
Proof. reflexivity. Qed.

Lemma loadApiEndpoints_toggles (api_endpoints : list EndpointEntry) (st : Popup) :
  toggles (loadApiEndpoints api_endpoints st)
  = toggles (toggleEnabled (0 <? Z.of_nat (length api_endpoints)) st).
Proof. reflexivity. Qed.

(** C8: the options of the endpoint selector are the descriptors among the
    entries, the falsy entries left out, in the order of the list. *)
Theorem loadApiEndpoints_keeps_truthy (api_endpoints : list EndpointEntry) (st : Popup) :
  ∃ survivors : list EndpointDescriptor,
    filter (λ e, entry_truthy e = true) api_endpoints = EDescriptor <$> survivors
    ∧ options (API_SELECT (loadApiEndpoints api_endpoints st))
      = (λ d, {| value := url d; innerText := name d |}) <$> survivors.
Proof.
  rewrite loadApiEndpoints_options.
  induction api_endpoints as [|e rest (survivors & Hfilter & Hoptions)].
  - by exists [].
  - change ((e :: rest) ≫= endpoint_option)
      with (endpoint_option e ++ (rest ≫= endpoint_option)).
    rewrite Hoptions. destruct e as [| | | |d].
    5: { exists (d :: survivors). rewrite filter_cons_True by done.
         by rewrite Hfilter. }
    all: exists survivors; by rewrite filter_cons_False by done.
Qed.

Example loadApiEndpoints_A_null_B (st : Popup) :
  options (API_SELECT (loadApiEndpoints
    [ EDescriptor {| name := "A"; url := "u1" |}; ENull;
      EDescriptor {| name := "B"; url := "u2" |} ] st))
  = [ {| value := "u1"; innerText := "A" |}; {| value := "u2"; innerText := "B" |} ].
Proof. reflexivity. Qed.

Lemma classList_add_remove (added removed : string) (classes : gset string) :
  added ≠ removed →
  added ∈ classList_add added (classList_remove removed classes)
  ∧ removed ∉ classList_add added (classList_remove removed classes).
Proof.
  intros Hne. unfold classList_add, classList_remove.
  rewrite !elem_of_union, !elem_of_difference, !elem_of_singleton.
  split; [by right|]. intros [[_ Hrem]|Heq]; [by apply Hrem|by apply Hne].
Qed.

Lemma toggleEnabled_classes (isEnabled : bool) (st : Popup) :
  Forall (λ elem,
            (if isEnabled then "enabled" else "disabled") ∈ elem
            ∧ (if isEnabled then "disabled" else "enabled") ∉ elem)
         (toggles (toggleEnabled isEnabled st)).
Proof.
  simpl. apply Forall_fmap, Forall_true. intros elem.
  apply classList_add_remove. by destruct isEnabled.
Qed.

(** An empty list disables the elements marked ['.toggle']. *)
Lemma loadApiEndpoints_empty (st : Popup) :
  Forall (λ elem, "disabled" ∈ elem ∧ "enabled" ∉ elem)
         (toggles (loadApiEndpoints [] st)).
Proof.
  rewrite loadApiEndpoints_toggles. apply (toggleEnabled_classes false).
Qed.

(** Whatever the entries are, a list that is not empty enables the
    elements marked ['.toggle']; when all its entries are falsy the
    selector is left without options. *)
Lemma loadApiEndpoints_nonempty (api_endpoints : list EndpointEntry) (st : Popup) :
  api_endpoints ≠ [] →
  Forall (λ elem, "enabled" ∈ elem ∧ "disabled" ∉ elem)
         (toggles (loadApiEndpoints api_endpoints st))
  ∧ (Forall (λ e, entry_truthy e = false) api_endpoints →
     options (API_SELECT (loadApiEndpoints api_endpoints st)) = []).
Proof.
  intros Hne. split.
  - rewrite loadApiEndpoints_toggles.
    assert ((0 <? Z.of_nat (length api_endpoints)) = true) as ->
      by (destruct api_endpoints; [done|apply Z.ltb_lt; simpl; lia]).
    apply (toggleEnabled_classes true).
  - rewrite loadApiEndpoints_options. clear Hne.
    induction 1 as [|e rest He _ IH]; [done|].
    change ((e :: rest) ≫= endpoint_option)
      with (endpoint_option e ++ (rest ≫= endpoint_option)).
    rewrite IH. unfold endpoint_option. by rewrite He.
Qed.

(** C6 at the list [[null]]: no option is left for the selector, and the
    elements marked ['.toggle'] are enabled all the same, since the script
    tests the length of the list it was given and not the number of options
    it appended. *)
Theorem loadApiEndpoints_only_placeholder (st : Popup) :
  options (API_SELECT (loadApiEndpoints [ENull] st)) = []
  ∧ Forall (λ elem, "enabled" ∈ elem ∧ "disabled" ∉ elem)
           (toggles (loadApiEndpoints [ENull] st)).
Proof.
  split; [reflexivity|].
  rewrite loadApiEndpoints_toggles. apply (toggleEnabled_classes true).
Qed.

(** ** The payload of the send action *)

Lemma prefix_app (needle rest : string) : String.prefix needle (needle +:+ rest) = true.
Proof.
  induction needle as [|a needle IH]; simpl; [by destruct rest|].
  by destruct (Ascii.ascii_dec a a).
Qed.

Lemma str_includes_prefix (s needle : string) :
  String.prefix needle s = true → str_includes s needle = true.
Proof. destruct s; simpl; by intros ->. Qed.

Lemma str_includes_here (needle rest : string) :
  str_includes (needle +:+ rest) needle = true.
Proof. apply str_includes_prefix, prefix_app. Qed.

Lemma str_includes_later (before s needle : string) :
  str_includes s needle = true → str_includes (before +:+ s) needle = true.
Proof.
  intros Hs. induction before as [|a before IH]; simpl; [done|].
  rewrite IH. apply orb_true_r.
Qed.

Lemma str_includes_middle (before needle after : string) :
  str_includes (before +:+ needle +:+ after) needle = true.
Proof. apply str_includes_later, str_includes_here. Qed.

(** The show action does carry the version it is given. *)
Lemma getRunAndShowCode_version (st : Popup) (version : string) :
  str_includes (getRunAndShowCode st version) version = true.
Proof.
  unfold getRunAndShowCode. do 3 apply str_includes_later.
  apply str_includes_here.
Qed.

(** C2, as the script implements it: the send action dispatches one
    payload, which sets the selected locale and calls [parseAndSendToApi]
    with the selected endpoint.  The payload holds both values verbatim,
    and is the same whatever the schema selector shows and whatever is
    stored: no schema version goes into it. *)
Theorem liToApiButton_click_payload (st : Popup) :
  (∃ payload,
     dispatched (liToApiButton_click st) = [payload]
     ∧ payload = "liToJrInstance.preferLocale = '" +:+ getSelectedLang st
                 +:+ "';liToJrInstance.parseAndSendToApi('"
                 +:+ getSelectedAPIEndpoint st +:+ "');"
     ∧ str_includes payload (getSelectedAPIEndpoint st) = true
     ∧ str_includes payload (getSelectedLang st) = true)
  ∧ (∀ st' : Popup,
       LANG_SELECT st' = LANG_SELECT st → API_SELECT st' = API_SELECT st →
       dispatched (liToApiButton_click st') = dispatched (liToApiButton_click st)).
Proof.
  split.
  - exists ("liToJrInstance.preferLocale = '" +:+ getSelectedLang st
            +:+ "';liToJrInstance.parseAndSendToApi('"
            +:+ getSelectedAPIEndpoint st +:+ "');").
    split; [reflexivity|]. split; [reflexivity|]. split.
    + do 3 apply str_includes_later. apply str_includes_here.
    + apply str_includes_later, str_includes_here.
  - intros st' Hlang Hapi.
    change (dispatched (liToApiButton_click st'))
      with ["liToJrInstance.preferLocale = '" +:+ select_value (LANG_SELECT st')
            +:+ "';liToJrInstance.parseAndSendToApi('"
            +:+ select_value (API_SELECT st') +:+ "');"].
    by rewrite Hlang, Hapi.
Qed.

Lemma liToApiButton_click_payload_witness :
  dispatched (liToApiButton_click (popup_showing "legacy" "en" "https://api.example.com"))
  = dispatched (liToApiButton_click (popup_showing "beta" "en" "https://api.example.com")).
Proof.
  apply (proj2 (liToApiButton_click_payload
                  (popup_showing "beta" "en" "https://api.example.com"))); reflexivity.
Defined.

(** C2 as written fails: with ['beta'] both shown and stored, the payload
    of the send action holds the endpoint but no ['beta']. *)
Lemma liToApiButton_click_omits_version :
  outcome (getSpecVersion (popup_showing "beta" "en" "https://api.example.com")
             {| items := {[ "schemaVersion" := JStr "beta" ]}; health := Working |})
  = Ok (Fulfilled (JStr "beta"))
  ∧ getSelectedAPIEndpoint (popup_showing "beta" "en" "https://api.example.com")
    = "https://api.example.com"
  ∧ dispatched (liToApiButton_click (popup_showing "beta" "en" "https://api.example.com"))
    = ["liToJrInstance.preferLocale = 'en';liToJrInstance.parseAndSendToApi('https://api.example.com');"]
  ∧ ¬ (∃ payload,
         payload ∈ dispatched (liToApiButton_click
                                 (popup_showing "beta" "en" "https://api.example.com"))
         ∧ str_includes payload "beta" = true).
Proof.
  split_and!; [by vm_compute|reflexivity|reflexivity|].
  intros (payload & Hin & Hbeta).
  change (dispatched (liToApiButton_click (popup_showing "beta" "en" "https://api.example.com")))
    with ["liToJrInstance.preferLocale = 'en';liToJrInstance.parseAndSendToApi('https://api.example.com');"]
    in Hin.
  apply list_elem_of_singleton in Hin. subst payload.
  vm_compute in Hbeta. discriminate Hbeta.
Qed.

(** ** The injected bootstrap code *)

Section RemoteScopeFacts.
Context {Instance : Type} (LinkedinToResumeJson : bool → Instance).
Implicit Types (s : Scope Instance) (ds : list (Dispatch Instance)).

Lemma bootstrap_bound s (existing : Instance) :
  liToJrInstance s = Some existing →
  liToJrInstance (run_createMainInstanceCode LinkedinToResumeJson s) = Some existing
  ∧ constructed (run_createMainInstanceCode LinkedinToResumeJson s) = constructed s.
Proof. intros Hbound. unfold run_createMainInstanceCode. by rewrite Hbound. Qed.

Lemma bootstrap_fresh s :
  liToJrInstance s = None →
  liToJrInstance (run_createMainInstanceCode LinkedinToResumeJson s)
  = Some (LinkedinToResumeJson (str_includes (location_href s) "li2jr_debug=true"))
  ∧ constructed (run_createMainInstanceCode LinkedinToResumeJson s)
    = constructed s ++ [str_includes (location_href s) "li2jr_debug=true"].
Proof. intros Hfresh. unfold run_createMainInstanceCode. by rewrite Hfresh. Qed.

Lemma bootstrap_idempotent s :
  run_createMainInstanceCode LinkedinToResumeJson
    (run_createMainInstanceCode LinkedinToResumeJson s)
  = run_createMainInstanceCode LinkedinToResumeJson s.
Proof. unfold run_createMainInstanceCode. by destruct (liToJrInstance s). Qed.

Lemma run_all_cons (d : Dispatch Instance) ds s :
  run_all LinkedinToResumeJson (d :: ds) s
  = run_all LinkedinToResumeJson ds (run_dispatch LinkedinToResumeJson d s).
Proof. reflexivity. Qed.

Lemma run_all_app ds ds' s :
  run_all LinkedinToResumeJson (ds ++ ds') s
  = run_all LinkedinToResumeJson ds' (run_all LinkedinToResumeJson ds s).
Proof. unfold run_all. apply foldl_app. Qed.

(** Once an instance is bound, no dispatch constructs another. *)
Lemma run_all_bound ds s :
  is_Some (liToJrInstance s) →
  is_Some (liToJrInstance (run_all LinkedinToResumeJson ds s))
  ∧ constructed (run_all LinkedinToResumeJson ds s) = constructed s.
Proof.
  revert s. induction ds as [|d ds IH]; intros s Hbound; [done|].
  rewrite run_all_cons. destruct Hbound as [existing Hbound].
  assert (is_Some (liToJrInstance (run_dispatch LinkedinToResumeJson d s))
          ∧ constructed (run_dispatch LinkedinToResumeJson d s) = constructed s)
    as [Hbound' Hsame].
  { destruct d as [|update]; simpl.
    - destruct (bootstrap_bound s existing Hbound) as [Hi Hc].
      rewrite Hi, Hc. eauto.
    - rewrite Hbound. simpl. eauto. }
  destruct (IH _ Hbound') as [Hsome Hc]. by rewrite Hc.
Qed.

(** C5: in a scope where no instance is bound yet, the bootstrap followed
    by any dispatches, a second bootstrap and any further dispatches makes
    one constructor call in all; in a scope where an instance is bound,
    the bootstrap keeps that binding and constructs nothing; and running
    the bootstrap a second time right away changes nothing at all. *)
Theorem createMainInstanceCode_once s :
  (liToJrInstance s = None →
   ∀ between after : list (Dispatch Instance),
     constructed
       (run_all LinkedinToResumeJson (Bootstrap :: between ++ Bootstrap :: after) s)
     = constructed s ++ [str_includes (location_href s) "li2jr_debug=true"])
  ∧ (∀ existing : Instance,
       liToJrInstance s = Some existing →
       liToJrInstance (run_createMainInstanceCode LinkedinToResumeJson s)
       = Some existing
       ∧ constructed (run_createMainInstanceCode LinkedinToResumeJson s)
         = constructed s)
  ∧ run_createMainInstanceCode LinkedinToResumeJson
      (run_createMainInstanceCode LinkedinToResumeJson s)
    = run_createMainInstanceCode LinkedinToResumeJson s.
Proof.
  split_and!.
  - intros Hfresh between after. rewrite run_all_cons. simpl run_dispatch.
    destruct (bootstrap_fresh s Hfresh) as [Hi Hc].
    destruct (run_all_bound (between ++ Bootstrap :: after)
                (run_createMainInstanceCode LinkedinToResumeJson s)) as [_ Hsame].
    { rewrite Hi. eauto. }
    by rewrite Hsame, Hc.
  - apply bootstrap_bound.
  - apply bootstrap_idempotent.
Qed.
End RemoteScopeFacts.

(** A run on a profile page: the popup is opened, a locale is chosen, and
    the popup is opened again. *)
Lemma createMainInstanceCode_once_witness :
  constructed
    (run_all (λ isDebug : bool, (isDebug, @None string))
       (Bootstrap :: [Command (λ i, (i.1, Some "fr"))] ++ Bootstrap :: [])
       {| location_href := "https://www.linkedin.com/in/someone/";
          isDebug := None; liToJrInstance := None; constructed := [] |})
  = [false].
Proof.
  exact (proj1 (createMainInstanceCode_once (λ isDebug : bool, (isDebug, @None string))
    {| location_href := "https://www.linkedin.com/in/someone/";
       isDebug := None; liToJrInstance := None; constructed := [] |})
    eq_refl [Command (λ i, (i.1, Some "fr"))] []).
Defined.

(** * Further properties of the script *)

(** ** The stored version, written and read back *)

(** X1: a version written by [setSpecVersion] to a working storage is what
    [getSpecVersion] resolves to afterwards, whatever the selector of the
    reading popup shows, when it is one of the three options; a value that
    is none of them is stored all the same but never read back: the read
    resolves to the selector's value. *)
Theorem setSpecVersion_then_getSpecVersion (version : string) (st : Popup)
    (area : StorageArea) :
  failing area = false →
  (JStr version ∈ SPEC_OPTIONS →
   outcome (getSpecVersion st (setSpecVersion version area).1)
   = Ok (Fulfilled (JStr version)))
  ∧ (JStr version ∉ SPEC_OPTIONS →
     items (setSpecVersion version area).1 !! STORAGE_KEYS_schemaVersion
     = Some (JStr version)
     ∧ outcome (getSpecVersion st (setSpecVersion version area).1)
       = Ok (Fulfilled (JStr (select_value (SPEC_SELECT st))))).
Proof.
  intros Hfail.
  assert (failing (setSpecVersion version area).1 = false) as Hfail'
    by (by rewrite setSpecVersion_failing).
  pose proof (setSpecVersion_stores version area Hfail) as Hstored.
  rewrite getSpecVersion_reading by done.
  unfold prop. rewrite Hstored. split.
  - intros Hin. by rewrite decide_True.
  - intros Hnot. split; [done|]. by rewrite decide_False.
Qed.

Lemma setSpecVersion_then_getSpecVersion_witness :
  outcome (getSpecVersion (popup_showing "stable" "en" "u1")
             (setSpecVersion "beta" {| items := ∅; health := Working |}).1)
  = Ok (Fulfilled (JStr "beta")).
Proof.
  apply (proj1 (setSpecVersion_then_getSpecVersion "beta"
                  (popup_showing "stable" "en" "u1")
                  {| items := ∅; health := Working |} eq_refl)).
  apply (bool_decide_unpack _). vm_compute. exact I.
Defined.

(** X2: right after the [change] listener of the schema selector has run,
    [getSpecVersion] resolves to what the selector shows when the storage
    works and when its calls throw, also when the selector's value is not
    one of the three options; when the storage reports its failures
    through the callback, nothing is written and the read stays pending. *)
Theorem SPEC_SELECT_change_then_getSpecVersion (st : Popup) (area : StorageArea) :
  (health area ≠ ReportingError →
   outcome (getSpecVersion st (SPEC_SELECT_change st area).1)
   = Ok (Fulfilled (JStr (select_value (SPEC_SELECT st)))))
  ∧ (health area = ReportingError →
     items (SPEC_SELECT_change st area).1 = items area
     ∧ outcome (getSpecVersion st (SPEC_SELECT_change st area).1) = Ok Pending).
Proof.
  unfold SPEC_SELECT_change.
  pose proof (setSpecVersion_health (select_value (SPEC_SELECT st)) area) as Hsame.
  destruct (health area) eqn:Hhealth.
  - split; [intros _|done].
    assert (failing area = false) as Hfail by (by apply failing_false).
    rewrite getSpecVersion_reading by (by rewrite setSpecVersion_failing).
    unfold prop. rewrite (setSpecVersion_stores _ area Hfail).
    by case_decide.
  - split; [intros _|done]. by rewrite getSpecVersion_throwing.
  - split; [done|intros _]. split.
    + unfold setSpecVersion, chrome_storage_sync_set. by rewrite Hhealth.
    + by rewrite getSpecVersion_unanswered.
Qed.

Lemma SPEC_SELECT_change_then_getSpecVersion_witness :
  outcome (getSpecVersion (popup_showing "not-a-version" "en" "u1")
             (SPEC_SELECT_change (popup_showing "not-a-version" "en" "u1")
                {| items := {[ "schemaVersion" := JStr "beta" ]};
                   health := Throwing |}).1)
  = Ok (Fulfilled (JStr "not-a-version")).
Proof.
  apply (proj1 (SPEC_SELECT_change_then_getSpecVersion
                  (popup_showing "not-a-version" "en" "u1")
                  {| items := {[ "schemaVersion" := JStr "beta" ]};
                     health := Throwing |})).
  discriminate.
Defined.

(** ** Enabling and the loader *)

Lemma classList_toggle_twice (first second : bool) (classes : gset string) :
  classList_add (if second then "enabled" else "disabled")
    (classList_remove (if second then "disabled" else "enabled")
       (classList_add (if first then "enabled" else "disabled")
          (classList_remove (if first then "disabled" else "enabled") classes)))
  = classList_add (if second then "enabled" else "disabled")
      (classList_remove (if second then "disabled" else "enabled") classes).
Proof.
  unfold classList_add, classList_remove. apply set_eq. intros c.
  rewrite !elem_of_union, !elem_of_difference, !elem_of_union,
    !elem_of_difference, !elem_of_singleton.
  destruct (decide (c = "enabled")) as [He|He];
    destruct (decide (c = "disabled")) as [Hd|Hd];
    destruct first, second; intuition congruence.
Qed.

Lemma toggleEnabled_twice (first second : bool) (st : Popup) :
  toggleEnabled second (toggleEnabled first st) = toggleEnabled second st.
Proof.
  unfold toggleEnabled. simpl. f_equal.
  rewrite <- list_fmap_compose. apply list_fmap_ext. intros i elem _.
  apply classList_toggle_twice.
Qed.

(** X3: [toggleEnabled] is decided by its last call: whatever an earlier
    call did is overwritten.  After a call each ['.toggle'] element has
    exactly one of the classes ['enabled'] and ['disabled'], the one asked
    for, and its other classes are as before. *)
Theorem toggleEnabled_last_call (first second : bool) (st : Popup) :
  toggleEnabled second (toggleEnabled first st) = toggleEnabled second st
  ∧ Forall (λ elem,
              (if second then "enabled" else "disabled") ∈ elem
              ∧ (if second then "disabled" else "enabled") ∉ elem)
           (toggles (toggleEnabled second st))
  ∧ Forall2 (λ after before,
               ∀ c, c ≠ "enabled" → c ≠ "disabled" → c ∈ after ↔ c ∈ before)
            (toggles (toggleEnabled second st)) (toggles st).
Proof.
  split_and!.
  - apply toggleEnabled_twice.
  - apply toggleEnabled_classes.
  - simpl. apply Forall2_fmap_l, Forall_Forall2_diag, Forall_true.
    intros elem c He Hd. unfold classList_add, classList_remove.
    rewrite elem_of_union, elem_of_difference, !elem_of_singleton.
    destruct second; intuition congruence.
Qed.

Lemma classList_hidden_twice (first second : bool) (classes : gset string) :
  (if second then classList_remove "hidden" else classList_add "hidden")
    ((if first then classList_remove "hidden" else classList_add "hidden") classes)
  = (if second then classList_remove "hidden" else classList_add "hidden") classes.
Proof.
  unfold classList_add, classList_remove. apply set_eq. intros c.
  destruct (decide (c = "hidden")); destruct first, second;
    rewrite ?elem_of_union, ?elem_of_difference, ?elem_of_union,
      ?elem_of_difference, ?elem_of_singleton; tauto.
Qed.

(** X4: [showLoader] too is decided by its last call.  After
    [showLoader(true)] no ['.loader'] element is hidden, after
    [showLoader(false)] all are; the other classes of the loaders, the
    selectors and the toggles are never touched. *)
Theorem showLoader_last_call (first second : bool) (st : Popup) :
  showLoader second (showLoader first st) = showLoader second st
  ∧ Forall (λ elem, "hidden" ∈ elem ↔ second = false)
           (loaders (showLoader second st))
  ∧ Forall2 (λ after before, ∀ c, c ≠ "hidden" → c ∈ after ↔ c ∈ before)
            (loaders (showLoader second st)) (loaders st)
  ∧ toggles (showLoader second st) = toggles st
  ∧ LANG_SELECT (showLoader second st) = LANG_SELECT st
  ∧ API_SELECT (showLoader second st) = API_SELECT st
  ∧ SPEC_SELECT (showLoader second st) = SPEC_SELECT st.
Proof.
  split_and!; try reflexivity.
  - unfold showLoader. simpl. f_equal.
    rewrite <- list_fmap_compose. apply list_fmap_ext. intros i elem _.
    pose proof (classList_hidden_twice first second elem) as Htwice.
    simpl. by destruct first, second.
  - simpl. apply Forall_fmap, Forall_true. intros elem. simpl.
    unfold classList_add, classList_remove.
    destruct second;
      rewrite ?elem_of_union, ?elem_of_difference, ?elem_of_singleton;
      intuition congruence.
  - simpl. apply Forall2_fmap_l, Forall_Forall2_diag, Forall_true.
    intros elem c Hc. unfold classList_add, classList_remove.
    destruct second;
      rewrite ?elem_of_union, ?elem_of_difference, ?elem_of_singleton;
      intuition congruence.
Qed.

(** ** Filling the selectors *)

Lemma select_value_choose_fmap {A : Type} (f : A → HTMLOptionElement)
    (l : list A) (i : nat) :
  select_value (choose i (replace_options (f <$> l)))
  = default "" (value ∘ f <$> l !! i).
Proof.
  unfold select_value, choose, replace_options. simpl.
  rewrite list_lookup_fmap. by destruct (l !! i).
Qed.

Lemma select_value_replace_fmap {A : Type} (f : A → HTMLOptionElement) (l : list A) :
  select_value (replace_options (f <$> l)) = default "" (value ∘ f <$> head l).
Proof. by destruct l. Qed.

Lemma loadLangs_values (langs : list string) (st : Popup) :
  value <$> options (LANG_SELECT (loadLangs langs st)) = langs.
Proof.
  simpl. rewrite <- list_fmap_compose. rewrite <- (list_fmap_id langs) at 2.
  by apply list_fmap_ext.
Qed.

Lemma loadLangs_toggles (langs : list string) (st : Popup) :
  Forall (λ elem,
            (if bool_decide (langs = []) then "disabled" else "enabled") ∈ elem
            ∧ (if bool_decide (langs = []) then "enabled" else "disabled") ∉ elem)
         (toggles (loadLangs langs st)).
Proof.
  destruct langs as [|lang rest].
  - apply (toggleEnabled_classes false).
  - apply (toggleEnabled_classes true).
Qed.

(** X5: [loadLangs] gives the language selector one option per language,
    in order, with the language as both value and label; the first one is
    the selected one, and with no language at all the selected value is
    the empty string.  The ['.toggle'] elements end up enabled when there
    is a language and disabled when there is none.  The other selectors
    and the loaders are left alone. *)
Theorem loadLangs_options (langs : list string) (st : Popup) :
  value <$> options (LANG_SELECT (loadLangs langs st)) = langs
  ∧ innerText <$> options (LANG_SELECT (loadLangs langs st)) = langs
  ∧ getSelectedLang (loadLangs langs st) = default "" (head langs)
  ∧ Forall (λ elem,
              (if bool_decide (langs = []) then "disabled" else "enabled") ∈ elem
              ∧ (if bool_decide (langs = []) then "enabled" else "disabled") ∉ elem)
           (toggles (loadLangs langs st))
  ∧ API_SELECT (loadLangs langs st) = API_SELECT st
  ∧ SPEC_SELECT (loadLangs langs st) = SPEC_SELECT st
  ∧ loaders (loadLangs langs st) = loaders st.
Proof.
  split_and!; try reflexivity.
  - apply loadLangs_values.
  - simpl. rewrite <- list_fmap_compose. rewrite <- (list_fmap_id langs) at 2.
    by apply list_fmap_ext.
  - by destruct langs.
  - apply loadLangs_toggles.
Qed.

(** The listener on a locales report from this extension. *)
Lemma onMessage_locales (extensionId : string) (message : Message)
    (sender : MessageSender) (st : Popup) (supported : list string) (user : string) :
  id sender = Some extensionId → key message = "locales" →
  mvalue message = LocalesReport supported user →
  onMessage extensionId message sender st
  = ([ConsoleLog (LogMessage message); FetchResource "./endpoints.json"],
     Ok (loadLangs (userLocaleFirst supported user) st)).
Proof.
  intros Hid Hkey Hvalue. unfold onMessage.
  rewrite !bool_decide_eq_true_2 by done. by rewrite Hvalue.
Qed.

(** X6: a locales report from this extension always leaves the popup
    enabled, also when it reports no supported locale at all: the list
    handed to [loadLangs] starts with the user's locale, which is therefore
    the selected language, and is never empty. *)
Theorem onMessage_locales_enables (extensionId : string) (message : Message)
    (sender : MessageSender) (st : Popup) (supported : list string) (user : string) :
  id sender = Some extensionId → key message = "locales" →
  mvalue message = LocalesReport supported user →
  ∃ st', outcome (onMessage extensionId message sender st) = Ok st'
    ∧ value <$> options (LANG_SELECT st') = userLocaleFirst supported user
    ∧ getSelectedLang st' = user
    ∧ Forall (λ elem, "enabled" ∈ elem ∧ "disabled" ∉ elem) (toggles st').
Proof.
  intros Hid Hkey Hvalue.
  rewrite (onMessage_locales _ _ _ _ supported user) by done.
  eexists. split; [reflexivity|].
  split_and!; [apply loadLangs_values|reflexivity|].
  apply (loadLangs_toggles (userLocaleFirst supported user) st).
Qed.

Lemma onMessage_locales_enables_witness :
  ∃ st', outcome (onMessage "abcdefghijklmnop"
                    {| key := "locales"; mvalue := LocalesReport [] "fr" |}
                    {| id := Some "abcdefghijklmnop" |}
                    (popup_showing "beta" "" ""))
         = Ok st'
    ∧ value <$> options (LANG_SELECT st') = userLocaleFirst [] "fr"
    ∧ getSelectedLang st' = "fr"
    ∧ Forall (λ elem, "enabled" ∈ elem ∧ "disabled" ∉ elem) (toggles st').
Proof.
  apply (onMessage_locales_enables "abcdefghijklmnop"
           {| key := "locales"; mvalue := LocalesReport [] "fr" |}
           {| id := Some "abcdefghijklmnop" |}
           (popup_showing "beta" "" "") [] "fr"); reflexivity.
Defined.

(** X7: the enabled state that [loadLangs] sets does not survive
    [loadApiEndpoints], which runs after it: the state of the ['.toggle']
    elements is the one the endpoint list alone decides, so an empty
    endpoint list disables a popup whose languages are loaded.  The
    language selector is not touched by the endpoint load. *)
Theorem loadApiEndpoints_after_loadLangs (api_endpoints : list EndpointEntry)
    (langs : list string) (st : Popup) :
  toggles (loadApiEndpoints api_endpoints (loadLangs langs st))
  = toggles (loadApiEndpoints api_endpoints st)
  ∧ LANG_SELECT (loadApiEndpoints api_endpoints (loadLangs langs st))
    = LANG_SELECT (loadLangs langs st)
  ∧ Forall (λ elem, "disabled" ∈ elem ∧ "enabled" ∉ elem)
           (toggles (loadApiEndpoints [] (loadLangs langs st))).
Proof.
  assert (∀ raw, toggles (loadApiEndpoints raw (loadLangs langs st))
                 = toggles (loadApiEndpoints raw st)) as Hlast.
  { intros raw. rewrite !loadApiEndpoints_toggles.
    change (toggles (toggleEnabled (0 <? Z.of_nat (length raw)) (loadLangs langs st)))
      with (toggles (toggleEnabled (0 <? Z.of_nat (length raw))
                       (toggleEnabled (0 <? Z.of_nat (length langs)) st))).
    by rewrite toggleEnabled_twice. }
  split_and!; [apply Hlast|reflexivity|].
  rewrite Hlast. apply loadApiEndpoints_empty.
Qed.

(** ** What the actions dispatch once the lists are loaded *)

Lemma endpoint_options_survivors (api_endpoints : list EndpointEntry)
    (survivors : list EndpointDescriptor) :
  filter (λ e, entry_truthy e = true) api_endpoints = EDescriptor <$> survivors →
  api_endpoints ≫= endpoint_option
  = (λ d, {| value := url d; innerText := name d |}) <$> survivors.
Proof.
  revert survivors.
  induction api_endpoints as [|e rest IH]; intros survivors Hfilter.
  - by destruct survivors.
  - change ((e :: rest) ≫= endpoint_option)
      with (endpoint_option e ++ (rest ≫= endpoint_option)).
    destruct e as [| | | |d].
    5: { rewrite filter_cons_True in Hfilter by done.
         destruct survivors as [|d' survivors]; [done|].
         injection Hfilter as -> Hfilter. by rewrite (IH survivors). }
    all: rewrite filter_cons_False in Hfilter by done; by rewrite (IH survivors).
Qed.

(** X8: with the lists loaded from a locales report and the bundled
    endpoints and nothing selected by hand, the send action sets the
    reported user locale and sends to the URL of the first descriptor of
    the list; when the list holds no descriptor it calls
    [parseAndSendToApi('')].  The download action sets the same locale. *)
Theorem actions_after_loading (api_endpoints : list EndpointEntry)
    (survivors : list EndpointDescriptor) (supported : list string) (user : string)
    (st : Popup) :
  filter (λ e, entry_truthy e = true) api_endpoints = EDescriptor <$> survivors →
  dispatched (liToApiButton_click
                (loadApiEndpoints api_endpoints
                   (loadLangs (userLocaleFirst supported user) st)))
  = ["liToJrInstance.preferLocale = '" +:+ user
     +:+ "';liToJrInstance.parseAndSendToApi('"
     +:+ default "" (url <$> head survivors) +:+ "');"]
  ∧ dispatched (liToJsonDownloadButton_click
                  (loadApiEndpoints api_endpoints
                     (loadLangs (userLocaleFirst supported user) st)))
    = ["liToJrInstance.preferLocale = '" +:+ user
       +:+ "';liToJrInstance.parseAndDownload();"].
Proof.
  intros Hfilter.
  assert (getSelectedAPIEndpoint
            (loadApiEndpoints api_endpoints
               (loadLangs (userLocaleFirst supported user) st))
          = default "" (url <$> head survivors)) as Hendpoint.
  { unfold getSelectedAPIEndpoint.
    change (API_SELECT (loadApiEndpoints api_endpoints
                          (loadLangs (userLocaleFirst supported user) st)))
      with (replace_options (api_endpoints ≫= endpoint_option)).
    rewrite (endpoint_options_survivors _ survivors Hfilter).
    rewrite select_value_replace_fmap. by destruct survivors. }
  split.
  - change (dispatched (liToApiButton_click
              (loadApiEndpoints api_endpoints
                 (loadLangs (userLocaleFirst supported user) st))))
      with ["liToJrInstance.preferLocale = '" +:+ user
            +:+ "';liToJrInstance.parseAndSendToApi('"
            +:+ getSelectedAPIEndpoint
                  (loadApiEndpoints api_endpoints
                     (loadLangs (userLocaleFirst supported user) st))
            +:+ "');"].
    by rewrite Hendpoint.
  - reflexivity.
Qed.

Lemma actions_after_loading_witness :
  dispatched (liToApiButton_click
                (loadApiEndpoints [ENull; EFalse]
                   (loadLangs (userLocaleFirst ["en"] "fr")
                      (popup_showing "beta" "" ""))))
  = ["liToJrInstance.preferLocale = 'fr';liToJrInstance.parseAndSendToApi('');"].
Proof.
  apply (proj1 (actions_after_loading [ENull; EFalse] [] ["en"] "fr"
                  (popup_showing "beta" "" "") eq_refl)).
Defined.

(** X9: picking the [i]-th language of the loaded list and letting the
    [change] listener run dispatches the assignment of that language to
    [preferLocale], followed by a payload that only logs; with nothing
    selected the empty string is assigned. *)
Theorem LANG_SELECT_change_dispatches (langs : list string) (i : nat) (st : Popup) :
  dispatched (LANG_SELECT_change
                (with_LANG_SELECT (choose i (LANG_SELECT (loadLangs langs st)))
                   (loadLangs langs st)))
  = ["liToJrInstance.preferLocale = '" +:+ default "" (langs !! i) +:+ "';";
     "console.log(liToJrInstance);console.log(liToJrInstance.preferLocale);"].
Proof.
  unfold LANG_SELECT_change.
  assert (getSelectedLang
            (with_LANG_SELECT (choose i (LANG_SELECT (loadLangs langs st)))
               (loadLangs langs st))
          = default "" (langs !! i)) as ->; [|reflexivity].
  unfold getSelectedLang.
  change (LANG_SELECT (with_LANG_SELECT (choose i (LANG_SELECT (loadLangs langs st)))
                         (loadLangs langs st)))
    with (choose i (replace_options
                      ((λ lang, {| value := lang; innerText := lang |}) <$> langs))).
  rewrite select_value_choose_fmap. by destruct (langs !! i).
Qed.

(** X10: picking the [i]-th option of the loaded endpoint list and letting
    the [change] listener run dispatches the assignment of the URL of the
    [i]-th descriptor of the list, falsy entries not counted, to
    [apiEndpoint], followed by a payload that only logs. *)
Theorem API_SELECT_change_dispatches (api_endpoints : list EndpointEntry)
    (survivors : list EndpointDescriptor) (i : nat) (st : Popup) :
  filter (λ e, entry_truthy e = true) api_endpoints = EDescriptor <$> survivors →
  dispatched (API_SELECT_change
                (with_API_SELECT (choose i (API_SELECT (loadApiEndpoints api_endpoints st)))
                   (loadApiEndpoints api_endpoints st)))
  = ["liToJrInstance.apiEndpoint = '" +:+ default "" (url <$> survivors !! i) +:+ "';";
     "console.log(liToJrInstance);console.log(liToJrInstance.apiEndpoint);"].
Proof.
  intros Hfilter. unfold API_SELECT_change.
  assert (getSelectedAPIEndpoint
            (with_API_SELECT (choose i (API_SELECT (loadApiEndpoints api_endpoints st)))
               (loadApiEndpoints api_endpoints st))
          = default "" (url <$> survivors !! i)) as ->; [|reflexivity].
  unfold getSelectedAPIEndpoint.
  change (API_SELECT (with_API_SELECT
                        (choose i (API_SELECT (loadApiEndpoints api_endpoints st)))
                        (loadApiEndpoints api_endpoints st)))
    with (choose i (replace_options (api_endpoints ≫= endpoint_option))).
  rewrite (endpoint_options_survivors _ survivors Hfilter).
  rewrite select_value_choose_fmap. by destruct (survivors !! i).
Qed.

Lemma API_SELECT_change_dispatches_witness :
  dispatched (API_SELECT_change
                (with_API_SELECT
                   (choose 1 (API_SELECT
                      (loadApiEndpoints
                         [EDescriptor {| name := "A"; url := "u1" |}; ENull;
                          EDescriptor {| name := "B"; url := "u2" |}]
                         (popup_showing "beta" "en" ""))))
                   (loadApiEndpoints
                      [EDescriptor {| name := "A"; url := "u1" |}; ENull;
                       EDescriptor {| name := "B"; url := "u2" |}]
                      (popup_showing "beta" "en" ""))))
  = ["liToJrInstance.apiEndpoint = 'u2';";
     "console.log(liToJrInstance);console.log(liToJrInstance.apiEndpoint);"].
Proof.
  apply (API_SELECT_change_dispatches
           [EDescriptor {| name := "A"; url := "u1" |}; ENull;
            EDescriptor {| name := "B"; url := "u2" |}]
           [{| name := "A"; url := "u1" |}; {| name := "B"; url := "u2" |}]
           1 (popup_showing "beta" "en" "") eq_refl).
Defined.

(** ** The show action and the restored schema version *)

Lemma SPEC_OPTIONS_string (v : JsValue) : v ∈ SPEC_OPTIONS → ∃ s, v = JStr s.
Proof.
  unfold SPEC_OPTIONS. rewrite !elem_of_cons, elem_of_nil.
  intros [->|[->|[->|[]]]]; eauto.
Qed.

(** Unless the read fails through the callback, [getSpecVersion] resolves
    to a string: the stored option, or the selector's value. *)
Lemma getSpecVersion_resolved (st : Popup) (area : StorageArea) :
  health area ≠ ReportingError →
  ∃ done version,
    getSpecVersion st area = (done, Ok (Fulfilled (JStr version)))
    ∧ JStr version
      = if failing area then JStr (select_value (SPEC_SELECT st))
        else if decide (prop (items area) STORAGE_KEYS_schemaVersion ∈ SPEC_OPTIONS)
             then prop (items area) STORAGE_KEYS_schemaVersion
             else JStr (select_value (SPEC_SELECT st)).
Proof.
  intros Hanswered. unfold failing at 1. destruct (health area) eqn:Hhealth.
  - rewrite getSpecVersion_reading by (by apply failing_false).
    case_decide as Hin; [|eauto].
    destruct (SPEC_OPTIONS_string _ Hin) as [s Hs]. rewrite Hs. eauto.
  - rewrite getSpecVersion_throwing by done. eauto.
  - done.
Qed.

Lemma set_select_value_result (v : string) (sel : HTMLSelectElement) :
  select_value (set_select_value v sel)
  = if decide (v ∈ value <$> options sel) then v else "".
Proof.
  unfold select_value, set_select_value. simpl.
  destruct (list_find (λ o, value o = v) (options sel)) as [[i o]|] eqn:Hfind.
  - apply list_find_Some in Hfind as (Hlookup & Hvalue & _).
    rewrite Hlookup. simpl. rewrite decide_True; [done|].
    apply list_elem_of_fmap. exists o. split; [done|].
    by apply list_elem_of_lookup_2 in Hlookup.
  - rewrite lookup_ge_None_2 by done. simpl.
    rewrite decide_False; [done|].
    intros (o & Hvalue & Hin)%list_elem_of_fmap.
    apply list_find_None in Hfind. rewrite Forall_forall in Hfind.
    by apply (Hfind o Hin).
Qed.

Lemma set_select_value_same (sel : HTMLSelectElement) :
  select_value (set_select_value (select_value sel) sel) = select_value sel.
Proof.
  rewrite set_select_value_result. case_decide as Hin; [done|].
  unfold select_value in *.
  destruct (options sel !! selectedIndex sel) as [o|] eqn:Hlookup; [|done].
  simpl in *. destruct Hin. apply list_elem_of_fmap. exists o.
  split; [done|]. by apply list_elem_of_lookup_2 in Hlookup.
Qed.

Section TemplateLiteralFacts.
Context (ToString : JsValue → string).
Hypothesis ToString_string : ∀ s, ToString (JStr s) = s.

Lemma liToJsonButton_click_resolved (st : Popup) (area : StorageArea)
    (done : list Effect) (version : string) :
  getSpecVersion st area = (done, Ok (Fulfilled (JStr version))) →
  liToJsonButton_click ToString st area
  = (done ++ [ExecuteScript (getRunAndShowCode st version)], Ok (st, Some 700)).
Proof.
  intros Hget. unfold liToJsonButton_click. rewrite Hget.
  cbn [mbind Eff_bind]. by rewrite ToString_string.
Qed.

Lemma init_SPEC_SELECT_resolved (st : Popup) (area : StorageArea)
    (done : list Effect) (version : string) :
  getSpecVersion st area = (done, Ok (Fulfilled (JStr version))) →
  init_SPEC_SELECT ToString st area
  = (done ++ [], Ok (with_SPEC_SELECT (set_select_value version (SPEC_SELECT st)) st)).
Proof.
  intros Hget. unfold init_SPEC_SELECT. rewrite Hget.
  cbn [mbind Eff_bind]. by rewrite ToString_string.
Qed.

Lemma dispatched_app_script {A : Type} (done : list Effect) (code : string)
    (r : Result A) :
  (∀ e, e ∈ done → ∀ c, e ≠ ExecuteScript c) →
  dispatched (done ++ [ExecuteScript code], r) = [code].
Proof.
  intros Hnone. unfold dispatched, effects. simpl. rewrite omap_app. simpl.
  induction done as [|e done IH]; [done|].
  assert (∀ c, e ≠ ExecuteScript c) as He
    by (apply Hnone; apply list_elem_of_here).
  simpl. destruct e; try (by destruct (He code0)).
  all: apply IH; intros e' Hin; apply Hnone; by apply list_elem_of_further.
Qed.

Lemma getSpecVersion_no_dispatch (st : Popup) (area : StorageArea) :
  ∀ e, e ∈ effects (getSpecVersion st area) → ∀ c, e ≠ ExecuteScript c.
Proof.
  destruct (health area) eqn:Hhealth.
  - rewrite getSpecVersion_reading by (by apply failing_false). simpl.
    by intros e ?%elem_of_nil.
  - rewrite getSpecVersion_throwing by done. simpl.
    intros e ->%list_elem_of_singleton c. discriminate.
  - rewrite getSpecVersion_unanswered by done. simpl.
    by intros e ?%elem_of_nil.
Qed.

Lemma liToJsonButton_click_unanswered (st : Popup) (area : StorageArea) :
  health area = ReportingError →
  liToJsonButton_click ToString st area = ([], Ok (st, None)).
Proof.
  intros Hhealth. unfold liToJsonButton_click.
  by rewrite getSpecVersion_unanswered.
Qed.

Lemma init_SPEC_SELECT_unanswered (st : Popup) (area : StorageArea) :
  health area = ReportingError →
  init_SPEC_SELECT ToString st area = ([], Ok st).
Proof.
  intros Hhealth. unfold init_SPEC_SELECT.
  by rewrite getSpecVersion_unanswered.
Qed.

(** X11: when the storage works or its calls throw, the show action
    dispatches exactly one payload, which sets the selected locale and
    calls [parseAndShowOutput] with the version [getSpecVersion] resolved
    to: the stored option on a working storage, the selector's value when
    the read threw; it then sets the 700 ms timer that closes the popup.
    When the read fails through the callback the handler waits for ever:
    nothing is dispatched and no timer is set.  On no storage state does
    the handler throw or change the popup document. *)
Theorem liToJsonButton_click_dispatches (st : Popup) (area : StorageArea) :
  (health area ≠ ReportingError →
   ∃ version,
     outcome (getSpecVersion st area) = Ok (Fulfilled (JStr version))
     ∧ dispatched (liToJsonButton_click ToString st area)
       = ["liToJrInstance.preferLocale = '" +:+ getSelectedLang st
          +:+ "';liToJrInstance.parseAndShowOutput('" +:+ version +:+ "');"]
     ∧ outcome (liToJsonButton_click ToString st area) = Ok (st, Some 700)
     ∧ (failing area = false →
        ∀ v, items area !! STORAGE_KEYS_schemaVersion = Some (JStr v) →
             JStr v ∈ SPEC_OPTIONS → version = v)
     ∧ (health area = Throwing → version = select_value (SPEC_SELECT st)))
  ∧ (health area = ReportingError →
     dispatched (liToJsonButton_click ToString st area) = []
     ∧ outcome (liToJsonButton_click ToString st area) = Ok (st, None)).
Proof.
  split.
  - intros Hanswered.
    destruct (getSpecVersion_resolved st area Hanswered)
      as (done & version & Hget & Hversion).
    exists version.
    pose proof (getSpecVersion_no_dispatch st area) as Hnone.
    rewrite (liToJsonButton_click_resolved st area done version Hget).
    rewrite Hget in *. split_and!.
    + reflexivity.
    + by apply dispatched_app_script.
    + reflexivity.
    + intros Hfail v Hstored Hin. rewrite Hfail in Hversion.
      unfold prop in Hversion. rewrite Hstored in Hversion. simpl in Hversion.
      rewrite decide_True in Hversion by done. by injection Hversion.
    + intros Hthrowing. unfold failing in Hversion.
      rewrite Hthrowing in Hversion. by injection Hversion.
  - intros Hhealth. by rewrite liToJsonButton_click_unanswered.
Qed.

(** X12: the start-up code restores the schema selector from storage and
    changes nothing else in the popup.  A stored option becomes the
    selected one when the selector offers it, and leaves the selector
    without a selection when it does not; when the read fails, or what is
    stored is no option, the selector shows what it showed. *)
Theorem init_SPEC_SELECT_restores (st : Popup) (area : StorageArea) :
  ∃ st',
    outcome (init_SPEC_SELECT ToString st area) = Ok st'
    ∧ options (SPEC_SELECT st') = options (SPEC_SELECT st)
    ∧ LANG_SELECT st' = LANG_SELECT st
    ∧ API_SELECT st' = API_SELECT st
    ∧ toggles st' = toggles st
    ∧ loaders st' = loaders st
    ∧ (failing area = false →
       ∀ v, items area !! STORAGE_KEYS_schemaVersion = Some (JStr v) →
            JStr v ∈ SPEC_OPTIONS →
            select_value (SPEC_SELECT st')
            = if decide (v ∈ value <$> options (SPEC_SELECT st)) then v else "")
    ∧ (failing area = true
       ∨ prop (items area) STORAGE_KEYS_schemaVersion ∉ SPEC_OPTIONS →
       select_value (SPEC_SELECT st') = select_value (SPEC_SELECT st)).
Proof.
  assert (health area = ReportingError ∨ health area ≠ ReportingError)
    as [Hunanswered|Hanswered] by (destruct (health area); eauto).
  { rewrite init_SPEC_SELECT_unanswered by done.
    exists st. split; [reflexivity|]. split_and!; try reflexivity.
    intros Hfail%failing_false. by rewrite Hfail in Hunanswered. }
  destruct (getSpecVersion_resolved st area Hanswered)
    as (done & version & Hget & Hversion).
  rewrite (init_SPEC_SELECT_resolved st area done version Hget).
  eexists. split; [reflexivity|]. split_and!; try reflexivity.
  - intros Hfail v Hstored Hin. rewrite Hfail in Hversion.
    unfold prop in Hversion. rewrite Hstored in Hversion. simpl in Hversion.
    rewrite decide_True in Hversion by done. injection Hversion as ->.
    apply set_select_value_result.
  - intros Hfallback.
    assert (version = select_value (SPEC_SELECT st)) as ->.
    { destruct (failing area); [by injection Hversion|].
      destruct Hfallback as [?|Hnot]; [done|].
      rewrite decide_False in Hversion by done. by injection Hversion. }
    apply set_select_value_same.
Qed.

(** X13: a choice made in the schema selector is there again when the
    popup is opened anew: after the [change] listener has run on a working
    storage with one of the three options selected, the start-up code of a
    popup whose selector offers that option selects it. *)
Theorem SPEC_SELECT_change_then_init (st reopened : Popup) (area : StorageArea) :
  failing area = false →
  JStr (select_value (SPEC_SELECT st)) ∈ SPEC_OPTIONS →
  select_value (SPEC_SELECT st) ∈ value <$> options (SPEC_SELECT reopened) →
  ∃ st',
    outcome (init_SPEC_SELECT ToString reopened (SPEC_SELECT_change st area).1)
    = Ok st'
    ∧ select_value (SPEC_SELECT st') = select_value (SPEC_SELECT st).
Proof.
  intros Hfail Hoption Hoffered.
  assert (failing (setSpecVersion (select_value (SPEC_SELECT st)) area).1 = false)
    as Hfail' by (by rewrite setSpecVersion_failing).
  destruct (getSpecVersion_resolved reopened (SPEC_SELECT_change st area).1)
    as (done & version & Hget & Hversion).
  { unfold SPEC_SELECT_change. apply failing_false in Hfail'. by rewrite Hfail'. }
  rewrite (init_SPEC_SELECT_resolved _ _ done version Hget).
  eexists. split; [reflexivity|].
  unfold SPEC_SELECT_change in Hversion.
  rewrite Hfail' in Hversion. unfold prop in Hversion.
  rewrite (setSpecVersion_stores _ area Hfail) in Hversion. simpl in Hversion.
  rewrite decide_True in Hversion by done. injection Hversion as ->.
  simpl. rewrite set_select_value_result. by rewrite decide_True.
Qed.

End TemplateLiteralFacts.

Lemma liToJsonButton_click_dispatches_witness :
  outcome (liToJsonButton_click (λ v, match v with JStr s => s | _ => "" end)
             (popup_showing "beta" "en" "u1")
             {| items := {[ "schemaVersion" := JStr "stable" ]}; health := Working |})
  = Ok (popup_showing "beta" "en" "u1", Some 700).
Proof.
  destruct (proj1 (liToJsonButton_click_dispatches
              (λ v, match v with JStr s => s | _ => "" end) (λ s, eq_refl)
              (popup_showing "beta" "en" "u1")
              {| items := {[ "schemaVersion" := JStr "stable" ]}; health := Working |}))
    as (version & _ & _ & Houtcome & _).
  - discriminate.
  - exact Houtcome.
Defined.

Lemma init_SPEC_SELECT_restores_witness :
  ∃ st',
    outcome (init_SPEC_SELECT (λ v, match v with JStr s => s | _ => "" end)
               (popup_showing "beta" "en" "u1")
               {| items := {[ "schemaVersion" := JStr "stable" ]}; health := Working |})
    = Ok st'
    ∧ select_value (SPEC_SELECT st') = "".
Proof.
  destruct (init_SPEC_SELECT_restores
              (λ v, match v with JStr s => s | _ => "" end) (λ s, eq_refl)
              (popup_showing "beta" "en" "u1")
              {| items := {[ "schemaVersion" := JStr "stable" ]}; health := Working |})
    as (st' & Houtcome & _ & _ & _ & _ & _ & Hstored & _).
  exists st'. split; [exact Houtcome|].
  rewrite (Hstored eq_refl "stable").
  - vm_compute. reflexivity.
  - vm_compute. reflexivity.
  - apply (bool_decide_unpack _). vm_compute. exact I.
Defined.

Lemma SPEC_SELECT_change_then_init_witness :
  ∃ st',
    outcome (init_SPEC_SELECT (λ v, match v with JStr s => s | _ => "" end)
               (with_SPEC_SELECT
                  (replace_options
                     [ {| value := "stable"; innerText := "Stable" |};
                       {| value := "beta"; innerText := "Beta" |} ])
                  (popup_showing "" "" ""))
               (SPEC_SELECT_change (popup_showing "beta" "en" "u1")
                  {| items := ∅; health := Working |}).1)
    = Ok st'
    ∧ select_value (SPEC_SELECT st') = "beta".
Proof.
  apply (SPEC_SELECT_change_then_init
           (λ v, match v with JStr s => s | _ => "" end) (λ s, eq_refl)
           (popup_showing "beta" "en" "u1")
           (with_SPEC_SELECT
              (replace_options
                 [ {| value := "stable"; innerText := "Stable" |};
                   {| value := "beta"; innerText := "Beta" |} ])
              (popup_showing "" "" ""))
           {| items := ∅; health := Working |} eq_refl).
  - apply (bool_decide_unpack _). vm_compute. exact I.
  - apply (bool_decide_unpack _). vm_compute. exact I.
Defined.

(** ** The injected code *)

Lemma str_app_assoc (a b c : string) : (a +:+ b) +:+ c = a +:+ (b +:+ c).
Proof.
  induction a as [|x a IH]; [done|].
  change (String x ((a +:+ b) +:+ c) = String x (a +:+ (b +:+ c))).
  by rewrite IH.
Qed.

Lemma prefix_split (needle s : string) :
  String.prefix needle s = true → ∃ after, s = needle +:+ after.
Proof.
  revert s. induction needle as [|a needle IH]; intros s.
  - intros _. by exists s.
  - destruct s as [|b s]; simpl; [discriminate|].
    destruct (Ascii.ascii_dec a b) as [->|]; [|discriminate].
    intros [after ->]%IH. by exists after.
Qed.

Lemma str_includes_nil (needle : string) :
  str_includes "" needle = String.prefix needle "" || false.
Proof. reflexivity. Qed.

Lemma str_includes_cons (a : Ascii.ascii) (s needle : string) :
  str_includes (String a s) needle
  = String.prefix needle (String a s) || str_includes s needle.
Proof. reflexivity. Qed.

(** [s.includes(needle)] holds exactly when [needle] occurs in [s]. *)
Lemma str_includes_split (s needle : string) :
  str_includes s needle = true ↔ ∃ before after, s = before +:+ needle +:+ after.
Proof.
  split.
  - induction s as [|a s IH].
    + rewrite str_includes_nil, orb_true_iff.
      intros [[after Hs]%prefix_split|?]; [|discriminate].
      by exists "", after.
    + rewrite str_includes_cons, orb_true_iff.
      intros [[after Hs]%prefix_split|(before & after & ->)%IH].
      * by exists "", after.
      * by exists (String a before), after.
  - intros (before & after & ->). apply str_includes_middle.
Qed.

Lemma str_includes_trans (s middle needle : string) :
  str_includes s middle = true → str_includes middle needle = true →
  str_includes s needle = true.
Proof.
  intros (b1 & a1 & ->)%str_includes_split (b2 & a2 & ->)%str_includes_split.
  apply str_includes_split. exists (b1 +:+ b2), (a2 +:+ a1).
  by rewrite !str_app_assoc.
Qed.

Lemma str_includes_app_l (s rest needle : string) :
  str_includes s needle = true → str_includes (s +:+ rest) needle = true.
Proof.
  intros (before & after & ->)%str_includes_split.
  apply str_includes_split. exists before, (after +:+ rest).
  by rewrite !str_app_assoc.
Qed.

Lemma createMessageSenderInjectable_parts (extensionId valueToCapture k : string) :
  k ≠ "" →
  createMessageSenderInjectable extensionId valueToCapture (Some k)
  = ("chrome.runtime.sendMessage('" +:+ extensionId +:+ "'")
    +:+ ", {
        "
    +:+ ("key: '" +:+ k +:+ "'")
    +:+ ",
        "
    +:+ ("value: " +:+ valueToCapture)
    +:+ "
    });".
Proof.
  intros Hk. unfold createMessageSenderInjectable.
  rewrite (proj2 (String.eqb_neq k "") Hk).
  rewrite !str_app_assoc. reflexivity.
Qed.

(** X14: the code [createMessageSenderInjectable] builds sends to this
    extension a message with the given key and the named variable as
    value.  Leaving the key out, or passing the empty string for it, is the
    same as passing the name of the variable as key. *)
Theorem createMessageSenderInjectable_message (extensionId valueToCapture : string) :
  createMessageSenderInjectable extensionId valueToCapture None
  = createMessageSenderInjectable extensionId valueToCapture (Some valueToCapture)
  ∧ createMessageSenderInjectable extensionId valueToCapture (Some "")
    = createMessageSenderInjectable extensionId valueToCapture (Some valueToCapture)
  ∧ ∀ k, k ≠ "" →
      str_includes (createMessageSenderInjectable extensionId valueToCapture (Some k))
        ("chrome.runtime.sendMessage('" +:+ extensionId +:+ "'") = true
      ∧ str_includes (createMessageSenderInjectable extensionId valueToCapture (Some k))
          ("key: '" +:+ k +:+ "'") = true
      ∧ str_includes (createMessageSenderInjectable extensionId valueToCapture (Some k))
          ("value: " +:+ valueToCapture) = true.
Proof.
  split_and!.
  - unfold createMessageSenderInjectable.
    by destruct (String.eqb valueToCapture "").
  - unfold createMessageSenderInjectable.
    destruct (String.eqb valueToCapture "") eqn:Hempty; [|done].
    by apply String.eqb_eq in Hempty as ->.
  - intros k Hk. rewrite createMessageSenderInjectable_parts by done.
    split_and!.
    + apply str_includes_here.
    + do 2 apply str_includes_later. apply str_includes_here.
    + do 4 apply str_includes_later. apply str_includes_here.
Qed.

Lemma createMessageSenderInjectable_message_witness :
  str_includes (createMessageSenderInjectable "abcdefghijklmnop" "payload" (Some "locales"))
    "key: 'locales'" = true.
Proof.
  apply (proj2 (proj2 (createMessageSenderInjectable_message
                         "abcdefghijklmnop" "payload")) "locales").
  discriminate.
Defined.

(** X15: when the popup opens it first has main.js executed and then
    dispatches a single payload, the bootstrap code followed by the locale
    query; that payload sends its answer to this extension under the key
    ['locales'], the one key the listener accepts. *)
Theorem init_dispatches (extensionId : string) :
  effects (init extensionId)
  = [ExecuteFile "main.js";
     ExecuteScript (createMainInstanceCode +:+ getLangStringsCode extensionId)]
  ∧ ∃ code,
      dispatched (init extensionId) = [code]
      ∧ str_includes code createMainInstanceCode = true
      ∧ str_includes code ("chrome.runtime.sendMessage('" +:+ extensionId +:+ "'")
        = true
      ∧ str_includes code "key: 'locales'" = true.
Proof.
  split; [reflexivity|].
  exists (createMainInstanceCode +:+ getLangStringsCode extensionId).
  assert (str_includes (getLangStringsCode extensionId)
            (createMessageSenderInjectable extensionId "payload" (Some "locales"))
          = true) as Hsender.
  { unfold getLangStringsCode. apply str_includes_later, str_includes_here. }
  split_and!.
  - reflexivity.
  - apply str_includes_here.
  - apply str_includes_later. eapply str_includes_trans; [exact Hsender|].
    rewrite createMessageSenderInjectable_parts by discriminate.
    apply str_includes_here.
  - apply str_includes_later. eapply str_includes_trans; [exact Hsender|].
    rewrite createMessageSenderInjectable_parts by discriminate.
    do 2 apply str_includes_later.
    apply (str_includes_here ("key: '" +:+ "locales" +:+ "'")).
Qed.

(** ** The content-script scope, for any order of dispatches *)

Section RemoteScopeOrder.
Context {Instance : Type} (LinkedinToResumeJson : bool → Instance).
Implicit Types (s : Scope Instance) (ds : list (Dispatch Instance)).

Lemma run_all_href ds s :
  location_href (run_all LinkedinToResumeJson ds s) = location_href s.
Proof.
  revert s. induction ds as [|d ds IH]; intros s; [done|].
  rewrite run_all_cons, IH. destruct d; simpl; [|done].
  unfold run_createMainInstanceCode. by destruct (liToJrInstance s).
Qed.

(** X16: starting where no instance is bound, any sequence of dispatches
    makes one constructor call when the bootstrap code is among them and
    none when it is not; payloads that arrive before the bootstrap bind
    nothing.  The argument of the call is whether the address of the page
    contains the debug marker. *)
Theorem run_all_constructs ds s :
  liToJrInstance s = None →
  constructed (run_all LinkedinToResumeJson ds s)
  = constructed s
    ++ (if existsb is_Bootstrap ds
        then [str_includes (location_href s) "li2jr_debug=true"]
        else [])
  ∧ (is_Some (liToJrInstance (run_all LinkedinToResumeJson ds s))
     ↔ existsb is_Bootstrap ds = true).
Proof.
  revert s. induction ds as [|d ds IH]; intros s Hfresh.
  - simpl. rewrite app_nil_r, Hfresh. split; [done|].
    split; [by intros [? ?]|discriminate].
  - rewrite run_all_cons. destruct d as [|update]; simpl existsb.
    + simpl run_dispatch. destruct (bootstrap_fresh LinkedinToResumeJson s Hfresh)
        as [Hbound Hcalls].
      destruct (run_all_bound LinkedinToResumeJson ds
                  (run_createMainInstanceCode LinkedinToResumeJson s))
        as [Hsome Hsame]; [rewrite Hbound; eauto|].
      rewrite Hsame, Hcalls. done.
    + destruct (IH (run_dispatch LinkedinToResumeJson (Command update) s))
        as [Hcalls Hiff]; [simpl; by rewrite Hfresh|].
      split; [|exact Hiff]. rewrite Hcalls. reflexivity.
Qed.

(** X17: in a scope without an instance, on a page whose address contains
    ['li2jr_debug=true'] anywhere, the bootstrap constructs the instance in
    debug mode and sets the global [isDebug]. *)
Theorem run_createMainInstanceCode_debug s (before after : string) :
  liToJrInstance s = None →
  location_href s = before +:+ "li2jr_debug=true" +:+ after →
  liToJrInstance (run_createMainInstanceCode LinkedinToResumeJson s)
  = Some (LinkedinToResumeJson true)
  ∧ isDebug (run_createMainInstanceCode LinkedinToResumeJson s) = Some true
  ∧ constructed (run_createMainInstanceCode LinkedinToResumeJson s)
    = constructed s ++ [true].
Proof.
  intros Hfresh Hhref. unfold run_createMainInstanceCode.
  rewrite Hfresh, Hhref, str_includes_middle. done.
Qed.

End RemoteScopeOrder.

Lemma run_all_constructs_witness :
  constructed
    (run_all (λ isDebug : bool, (isDebug, @None string))
       [Command (λ i, (i.1, Some "fr")); Bootstrap; Command (λ i, (i.1, Some "de")); Bootstrap]
       {| location_href := "https://www.linkedin.com/in/someone/?li2jr_debug=true";
          isDebug := None; liToJrInstance := None; constructed := [] |})
  = [true].
Proof.
  exact (proj1 (run_all_constructs (λ isDebug : bool, (isDebug, @None string))
    [Command (λ i, (i.1, Some "fr")); Bootstrap; Command (λ i, (i.1, Some "de")); Bootstrap]
    {| location_href := "https://www.linkedin.com/in/someone/?li2jr_debug=true";
       isDebug := None; liToJrInstance := None; constructed := [] |} eq_refl)).
Defined.

Lemma run_createMainInstanceCode_debug_witness :
  isDebug
    (run_createMainInstanceCode (λ isDebug : bool, (isDebug, @None string))
       {| location_href := "https://www.linkedin.com/in/someone/?li2jr_debug=true";
          isDebug := None; liToJrInstance := None; constructed := [] |})
  = Some true.
Proof.
  exact (proj1 (proj2 (run_createMainInstanceCode_debug
    (λ isDebug : bool, (isDebug, @None string))
    {| location_href := "https://www.linkedin.com/in/someone/?li2jr_debug=true";
       isDebug := None; liToJrInstance := None; constructed := [] |}
    "https://www.linkedin.com/in/someone/?" "" eq_refl eq_refl))).
Defined.
